(** * A shallow embedding of the [azure] command line tool (src/azure.go)

    The program is a thin cobra front end over two SDKs: every command is a
    straight line of SDK calls, each followed by [if err != nil { log.Fatal }].
    The commands are embedded below as programs of a small state-and-exit
    monad over a [world] that holds the blob service, the standard streams
    and the trace of SDK calls.  The SDK itself is outside the repository; it
    is modelled once, in [Module SDK], and the commands are written against
    that model line by line. *)

From stdpp Require Import gmap strings list sorting.
From Stdlib Require Import ZArith Ascii.

Open Scope string_scope.
Open Scope list_scope.
Open Scope Z_scope.

(** ** Strings *)

(** The bytes the format strings need: a line feed and a double quote. *)
Definition nl : string := String "010"%char "".
Definition dq : string := String "034"%char "".

(** [strings.HasPrefix(k, p)] followed by [k[len(p):]]: the rest of [k]
    after [p], when [p] is a prefix of [k]. *)
Fixpoint stripPrefix (p k : string) : option string :=
  match p, k with
  | EmptyString, _ => Some k
  | String a p', String b k' =>
      if decide (a = b) then stripPrefix p' k' else None
  | String _ _, EmptyString => None
  end.

(** The segment of [r] up to and including the first occurrence of the
    delimiter [d]; [None] when [d] does not occur in [r]. *)
Fixpoint cutDelim (d : ascii) (r : string) : option string :=
  match r with
  | EmptyString => None
  | String c r' =>
      if decide (c = d) then Some (String c "")
      else String c <$> cutDelim d r'
  end.

(** Number of occurrences of [d] in [s]. *)
Fixpoint countDelim (d : ascii) (s : string) : nat :=
  match s with
  | EmptyString => 0%nat
  | String c s' => ((if decide (c = d) then 1 else 0) + countDelim d s')%nat
  end.

(** [n] levels of indentation: the closure appends two spaces per level. *)
Fixpoint indentOf (n : nat) : string :=
  match n with
  | O => ""
  | S n' => indentOf n' +:+ "  "
  end.

(** ** Errors *)

(** The kinds of failure a store call can report (spec section 7). *)
Inductive errKind :=
  | NotFound | AccessDenied | Throttled | Timeout | Cancelled | Unknown
  | Conflict.


(** A Go [error] value as the commands see it: built by [fmt.Errorf] in the
    flag checks, or returned by an SDK call. *)
Inductive error :=
  | FlagError (flag : string)
  | StoreError (k : errKind)
  | ArgError (msg : string).

Definition kindName (k : errKind) : string :=
  match k with
  | NotFound => "not found"
  | AccessDenied => "access denied"
  | Throttled => "throttled"
  | Timeout => "timeout"
  | Cancelled => "cancelled"
  | Unknown => "unknown"
  | Conflict => "conflict"
  end.

(** [err.Error()]: the flag checks use
    [fmt.Errorf(`flag "--blob-key" should be set`)]. *)
Definition errorString (e : error) : string :=
  match e with
  | FlagError f => "flag " +:+ dq +:+ f +:+ dq +:+ " should be set"
  | StoreError k => kindName k
  | ArgError msg => msg
  end.

(** ** The world *)

Record blob := Blob { content : string; contentType : string }.

(** The SDK calls a command can make, as they appear in the trace. *)
Inductive sdkCall :=
  | CallCreate (name : string)
  | CallDelete (name : string)
  | CallOpenBucket (name : string)
  | CallBucketClose
  | CallNewWriter (key : string)
  | CallWrite (data : string)
  | CallWriterClose
  | CallNewReader (key : string)
  | CallCopy
  | CallReaderClose
  | CallNext (prefix : string).

(** [containers] is the remote service: container name to blobs by key.
    [faults] is the simulated transport: every SDK call that goes to the
    network takes the head of the list, and fails with it when it is
    [Some k]; an empty list is a transport that never fails.  [stdout] and
    [stderr] hold one entry per print call, oldest first; [calls] is the
    trace of SDK calls, oldest first. *)
Record world := World {
  containers : gmap string (gmap string blob);
  faults : list (option errKind);
  stdout : list string;
  stderr : list string;
  calls : list sdkCall;
}.

Definition setContainers (cs : gmap string (gmap string blob)) (w : world) :=
  World cs (faults w) (stdout w) (stderr w) (calls w).
Definition setFaults (fs : list (option errKind)) (w : world) :=
  World (containers w) fs (stdout w) (stderr w) (calls w).
Definition addStdout (s : string) (w : world) :=
  World (containers w) (faults w) (stdout w ++ [s]) (stderr w) (calls w).
Definition addStderr (s : string) (w : world) :=
  World (containers w) (faults w) (stdout w) (stderr w ++ [s]) (calls w).
Definition addCall (c : sdkCall) (w : world) :=
  World (containers w) (faults w) (stdout w) (stderr w) (calls w ++ [c]).

(** ** The monad of commands *)

(** How a piece of the program ends: it returns to its caller ([Done]), the
    process is terminated on the spot by [os.Exit] ([Exited], which
    [log.Fatal] calls with status 1 and which runs no deferred call), the
    goroutine panics ([Panicked], a nil dereference), or the model runs out
    of fuel ([Diverged]). *)
Inductive outcome (A : Type) :=
  | Done (a : A)
  | Exited (code : Z)
  | Panicked
  | Diverged.
Arguments Done {A} a.
Arguments Exited {A} code.
Arguments Panicked {A}.
Arguments Diverged {A}.

Definition Cmd (A : Type) : Type := world → outcome A * world.

Definition ret {A} (a : A) : Cmd A := fun w => (Done a, w).

Definition bind {A B} (c : Cmd A) (k : A → Cmd B) : Cmd B := fun w =>
  match c w with
  | (Done a, w') => k a w'
  | (Exited n, w') => (Exited n, w')
  | (Panicked, w') => (Panicked, w')
  | (Diverged, w') => (Diverged, w')
  end.

Notation "x <- c ;; k" := (bind c (fun x => k))
  (at level 100, c at next level, right associativity).
Notation "c ;; k" := (bind c (fun _ => k))
  (at level 100, right associativity).

Definition modify (f : world → world) : Cmd unit := fun w => (Done tt, f w).
Definition gets {A} (f : world → A) : Cmd A := fun w => (Done (f w), w).
Definition osExit {A} (code : Z) : Cmd A := fun w => (Exited code, w).
Definition panic {A} : Cmd A := fun w => (Panicked, w).
Definition diverge {A} : Cmd A := fun w => (Diverged, w).

(** [fmt.Printf], [fmt.Println]: one entry of [stdout] per call. *)
Definition printf (s : string) : Cmd unit := modify (addStdout s).

(** [log.Fatal(err)]: the message goes to standard error, then
    [os.Exit(1)]. *)
Definition logFatal {A} (e : error) : Cmd A :=
  modify (addStderr (errorString e +:+ nl)) ;; osExit 1.

(** What a fallible SDK call hands back: Go's [(value, err)] pair. *)
Inductive result (A : Type) :=
  | Ok (a : A)
  | Err (e : error).
Arguments Ok {A} a.
Arguments Err {A} e.

(** ** The Go runtime and the SDK helpers the program takes as given

    [quote] is the [%q] verb ([strconv.Quote]); [urlValid] tells whether
    [url.Parse] accepts a raw URL (it returns a nil [*URL] otherwise);
    [detectContentType] is the sniffing the blob writer applies to content
    written without an explicit type; [newCredential] is
    [azureblob.NewCredential], which fails on an account key that is not
    base64. *)
Class GoRuntime := {
  quote : string → string;
  urlValid : string → bool;
  detectContentType : string → string;
  newCredential : string → string → option error;
}.

(** ** The SDK *)

Record Bucket := { bucketContainer : string; bucketPrefix : string }.

Record ListObject := { Key : string; IsDir : bool }.

Global Instance ListObject_eq_dec : EqDecision ListObject.
Proof. solve_decision. Defined.

Record ListOptions := { Delimiter : ascii; Prefix : string }.

Record ListIterator := {
  itPrefix : string;
  itMissing : bool;
  itPending : list ListObject;
}.

Inductive nextResult :=
  | NextObj (obj : ListObject)
  | NextEOF
  | NextErr (e : error).

Record Writer := { wBucket : Bucket; wKey : string; wBuf : string }.

Record Reader := { rContent : string; rContentType : string }.

Module SDK.

(** Modelled from the spec: section 4.1 gives the grouping rule of a
    delimiter listing, which the program gets from the SDK's
    [blob.Bucket.List]: a key under [prefix] with no further delimiter is
    reported as itself, a key with a further delimiter is reported as the
    directory [prefix + segment + delimiter]. *)
Definition entryOf (d : ascii) (prefix k : string) : option ListObject :=
  match stripPrefix prefix k with
  | None => None
  | Some r =>
      match cutDelim d r with
      | Some seg => Some {| Key := prefix +:+ seg; IsDir := true |}
      | None => Some {| Key := k; IsDir := false |}
      end
  end.

(** Modelled from the spec: one listing level over a key sequence; keys of
    one directory collapse into a single entry (section 4.1). *)
Definition listEntries (d : ascii) (keys : list string) (prefix : string)
  : list ListObject :=
  remove_dups (omap (entryOf d prefix) keys).

(** The keys a bucket handle sees, in byte order: those of its container
    that start with the handle's prefix, with that prefix removed
    ([blob.PrefixedBucket]).  [None] when the container does not exist. *)
Definition bucketKeys (b : Bucket) (w : world) : option (list string) :=
  match containers w !! bucketContainer b with
  | None => None
  | Some m =>
      Some (omap (stripPrefix (bucketPrefix b))
                 (merge_sort String.le (elements (dom m))))
  end.

(** The simulated transport: the call is traced, and fails when the head of
    the fault script says so. *)
Definition transport (c : sdkCall) : Cmd (option error) := fun w =>
  let w := addCall c w in
  match faults w with
  | [] => (Done None, w)
  | f :: fs => (Done (StoreError <$> f), setFaults fs w)
  end.

(** [containerURL.Create]: the service refuses to create a container that
    exists. *)
Definition containerCreate (name : string) : Cmd (option error) :=
  e <- transport (CallCreate name) ;;
  match e with
  | Some e => ret (Some e)
  | None =>
      cs <- gets containers ;;
      match cs !! name with
      | Some _ => ret (Some (StoreError Conflict))
      | None => modify (setContainers (<[name := ∅]> cs)) ;; ret None
      end
  end.

(** [containerURL.Delete]: the service refuses to delete a container that
    does not exist. *)
Definition containerDelete (name : string) : Cmd (option error) :=
  e <- transport (CallDelete name) ;;
  match e with
  | Some e => ret (Some e)
  | None =>
      cs <- gets containers ;;
      match cs !! name with
      | None => ret (Some (StoreError NotFound))
      | Some _ => modify (setContainers (delete name cs)) ;; ret None
      end
  end.

(** [azureblob.OpenBucket]: no request is sent; only the arguments are
    checked. *)
Definition openBucket (name : string) : Cmd (result Bucket) :=
  modify (addCall (CallOpenBucket name)) ;;
  if decide (name = "")
  then ret (Err (ArgError "azureblob.OpenBucket: containerName is required"))
  else ret (Ok {| bucketContainer := name; bucketPrefix := "" |}).

(** [blob.PrefixedBucket]. *)
Definition prefixedBucket (b : Bucket) (prefix : string) : Bucket :=
  {| bucketContainer := bucketContainer b;
     bucketPrefix := bucketPrefix b +:+ prefix |}.

(** [bucket.Close]; the program discards its result. *)
Definition bucketClose (b : Bucket) : Cmd unit :=
  modify (addCall CallBucketClose).

(** [bucket.NewWriter]. *)
Definition newWriter (b : Bucket) (key : string) : Cmd (result Writer) :=
  e <- transport (CallNewWriter key) ;;
  match e with
  | Some e => ret (Err e)
  | None => ret (Ok {| wBucket := b; wKey := key; wBuf := "" |})
  end.

(** [w.Write]: the bytes are buffered until [Close]. *)
Definition writerWrite (wr : Writer) (data : string) : Cmd (result Writer) :=
  e <- transport (CallWrite data) ;;
  match e with
  | Some e => ret (Err e)
  | None =>
      ret (Ok {| wBucket := wBucket wr; wKey := wKey wr;
                 wBuf := wBuf wr +:+ data |})
  end.

Section WithRuntime.
Context `{GoRuntime}.

(** [w.Close]: the buffered bytes become the blob's content. *)
Definition writerClose (wr : Writer) : Cmd (option error) :=
  e <- transport CallWriterClose ;;
  match e with
  | Some e => ret (Some e)
  | None =>
      cs <- gets containers ;;
      let c := bucketContainer (wBucket wr) in
      match cs !! c with
      | None => ret (Some (StoreError NotFound))
      | Some m =>
          let b := {| content := wBuf wr;
                      contentType := detectContentType (wBuf wr) |} in
          modify (setContainers
                    (<[c := <[bucketPrefix (wBucket wr) +:+ wKey wr := b]> m]> cs)) ;;
          ret None
      end
  end.

End WithRuntime.

(** [bucket.NewReader]. *)
Definition newReader (b : Bucket) (key : string) : Cmd (result Reader) :=
  e <- transport (CallNewReader key) ;;
  match e with
  | Some e => ret (Err e)
  | None =>
      cs <- gets containers ;;
      match cs !! bucketContainer b ≫= (.!! (bucketPrefix b +:+ key)) with
      | None => ret (Err (StoreError NotFound))
      | Some bl =>
          ret (Ok {| rContent := content bl; rContentType := contentType bl |})
      end
  end.

(** [io.Copy(os.Stdout, r)]. *)
Definition ioCopy (r : Reader) : Cmd (option error) :=
  e <- transport CallCopy ;;
  match e with
  | Some e => ret (Some e)
  | None => printf (rContent r) ;; ret None
  end.

(** [r.Close]; the program discards its result. *)
Definition readerClose (r : Reader) : Cmd unit :=
  modify (addCall CallReaderClose).

(** [b.List(opts)]: no request is sent yet. *)
Definition bucketList (b : Bucket) (opts : ListOptions) : Cmd ListIterator :=
  keys <- gets (bucketKeys b) ;;
  ret match keys with
      | None =>
          {| itPrefix := Prefix opts; itMissing := true; itPending := [] |}
      | Some ks =>
          {| itPrefix := Prefix opts; itMissing := false;
             itPending := listEntries (Delimiter opts) ks (Prefix opts) |}
      end.

(** [iter.Next(ctx)]: the next entry, [io.EOF], or an error. *)
Definition iterNext (it : ListIterator) : Cmd nextResult :=
  e <- transport (CallNext (itPrefix it)) ;;
  match e with
  | Some e => ret (NextErr e)
  | None =>
      if itMissing it then ret (NextErr (StoreError NotFound))
      else match itPending it with
           | [] => ret NextEOF
           | obj :: _ => ret (NextObj obj)
           end
  end.

End SDK.

(** ** The program (src/azure.go) *)

Definition accountName : string := "ENTER_YOUR_ACCOUNT_NAME".
Definition accountKey : string := "ENTER_YOUR_KEY".

(** The flag variables; [writeCmd] and [readCmd] share [blobKey]. *)
Record flags := {
  containerName : string;
  blobKey : string;
  blobValue : string;
  blobPrefix : string;
}.

(** The values [init] registers as defaults. *)
Definition defaultFlags : flags :=
  {| containerName := "default-container-name";
     blobKey := ""; blobValue := ""; blobPrefix := "" |}.

Inductive command :=
  | CreateContainer | DeleteContainer | Write | Read | List.

(** What cobra makes of the argument vector: one of the five commands with
    its flags parsed, or an error of its own (unknown command, unknown
    flag), which [rootCmd.Execute] returns without running anything. *)
Inductive invocation :=
  | Invoke (c : command) (fl : flags)
  | UsageError (msg : string).

Section Program.
Context `{GoRuntime}.

Definition containerURLOf (fl : flags) : string :=
  "https://" +:+ accountName +:+ ".blob.core.windows.net/" +:+ containerName fl.

(** [createContainerCmd.Run].  The error of [url.Parse] is discarded and
    the pointer dereferenced: a nil [URL] panics. *)
Definition createContainerCmd (fl : flags) : Cmd unit :=
  if urlValid (containerURLOf fl) then
    printf ("Creating a container named " +:+ quote (containerName fl) +:+ nl) ;;
    err <- SDK.containerCreate (containerName fl) ;;
    match err with
    | Some e => logFatal e
    | None =>
        printf ("Successfully created container "
                +:+ quote (containerName fl) +:+ nl)
    end
  else panic.

(** [deleteContainerCmd.Run]. *)
Definition deleteContainerCmd (fl : flags) : Cmd unit :=
  if urlValid (containerURLOf fl) then
    printf ("Deleting a container named " +:+ quote (containerName fl) +:+ nl) ;;
    err <- SDK.containerDelete (containerName fl) ;;
    match err with
    | Some e => logFatal e
    | None =>
        printf ("Successfully deleted container "
                +:+ quote (containerName fl) +:+ nl)
    end
  else panic.

(** [writeCmd.Run].  [defer bucket.Close()] runs when [Run] returns, not
    when [log.Fatal] exits. *)
Definition writeCmd (fl : flags) : Cmd unit :=
  (if decide (blobKey fl = "") then logFatal (FlagError "--blob-key")
   else ret tt) ;;
  (if decide (blobValue fl = "") then logFatal (FlagError "--blob-value")
   else ret tt) ;;
  r <- SDK.openBucket (containerName fl) ;;
  match r with
  | Err e => logFatal e
  | Ok bucket =>
      r <- SDK.newWriter bucket (blobKey fl) ;;
      match r with
      | Err e => logFatal e
      | Ok w =>
          (* fmt.Fprintln(w, blobValue) *)
          r <- SDK.writerWrite w (blobValue fl +:+ nl) ;;
          match r with
          | Err e => logFatal e
          | Ok w =>
              err <- SDK.writerClose w ;;
              match err with
              | Some e => logFatal e
              | None =>
                  printf ("Successfully written " +:+ quote (blobValue fl)
                          +:+ " to " +:+ quote (blobKey fl) +:+ nl) ;;
                  SDK.bucketClose bucket
              end
          end
      end
  end.

(** [readCmd.Run]. *)
Definition readCmd (fl : flags) : Cmd unit :=
  (if decide (blobKey fl = "") then logFatal (FlagError "--blob-key")
   else ret tt) ;;
  r <- SDK.openBucket (containerName fl) ;;
  match r with
  | Err e => logFatal e
  | Ok bucket =>
      r <- SDK.newReader bucket (blobKey fl) ;;
      match r with
      | Err e => logFatal e
      | Ok r =>
          (* fmt.Println("Content-Type:", r.ContentType()) *)
          printf ("Content-Type: " +:+ rContentType r +:+ nl) ;;
          printf nl ;;
          err <- SDK.ioCopy r ;;
          match err with
          | Some e => logFatal e
          | None =>
              printf ("Successfully read from " +:+ quote (blobKey fl) +:+ nl) ;;
              SDK.readerClose r ;;
              SDK.bucketClose bucket
          end
      end
  end.

(** The [for] loop of the [list] closure over one iterator; [recur] is the
    closure itself.  The loop ends at [io.EOF], and [log.Fatal] ends the
    process at any other error.  [pending] is what the iterator still
    holds: [iter.Next] hands back its head, and the next turn of the loop
    runs on its tail. *)
Fixpoint listLoop (recur : string → string → Cmd unit) (indent prefix : string)
    (missing : bool) (pending : list ListObject) {struct pending} : Cmd unit :=
  r <- SDK.iterNext {| itPrefix := prefix; itMissing := missing;
                       itPending := pending |} ;;
  match r with
  | NextEOF => ret tt
  | NextErr e => logFatal e
  | NextObj obj =>
      printf (indent +:+ Key obj +:+ nl) ;;
      (if IsDir obj then recur (Key obj) (indent +:+ "  ") else ret tt) ;;
      match pending with
      | [] => ret tt
      | _ :: rest => listLoop recur indent prefix missing rest
      end
  end.

(** The recursive closure [list] of [listCmd]; [delim] is the ["/"] of its
    [ListOptions], and [fuel] bounds the depth of the recursion, which the
    source leaves unbounded. *)
Fixpoint list' (delim : ascii) (fuel : nat) (b : Bucket) (prefix indent : string)
  : Cmd unit :=
  match fuel with
  | O => diverge
  | S n =>
      iter <- SDK.bucketList b {| Delimiter := delim; Prefix := prefix |} ;;
      listLoop (list' delim n b) indent (itPrefix iter) (itMissing iter)
               (itPending iter)
  end.

(** [listCmd.Run]. *)
Definition listCmd (fuel : nat) (fl : flags) : Cmd unit :=
  r <- SDK.openBucket (containerName fl) ;;
  match r with
  | Err e => logFatal e
  | Ok bucket0 =>
      let bucket := SDK.prefixedBucket bucket0 (blobPrefix fl) in
      list' "/" fuel bucket "" "" ;;
      printf ("Successfully listed from " +:+ quote (blobPrefix fl) +:+ nl) ;;
      SDK.bucketClose bucket ;;
      SDK.bucketClose bucket0
  end.

(** [init]: the credential and the pipeline. *)
Definition init : Cmd unit :=
  match newCredential accountName accountKey with
  | Some e => logFatal e
  | None => ret tt
  end.

Definition run (fuel : nat) (c : command) (fl : flags) : Cmd unit :=
  match c with
  | CreateContainer => createContainerCmd fl
  | DeleteContainer => deleteContainerCmd fl
  | Write => writeCmd fl
  | Read => readCmd fl
  | List => listCmd fuel fl
  end.

(** [Execute]: [rootCmd.Execute()], which runs the selected command and
    returns cobra's own error, if any. *)
Definition Execute (fuel : nat) (inv : invocation) : Cmd (option error) :=
  match inv with
  | Invoke c fl => run fuel c fl ;; ret None
  | UsageError msg =>
      modify (addStderr ("Error: " +:+ msg +:+ nl)) ;;
      ret (Some (ArgError msg))
  end.

(** [main]: the result of [Execute] is dropped. *)
Definition main (fuel : nat) (inv : invocation) : Cmd unit :=
  init ;;
  _ <- Execute fuel inv ;;
  ret tt.

End Program.

(** The status the operating system sees: 0 when [main] returns, the
    argument of [os.Exit], 2 after a panic. *)
Definition exitStatus {A} (o : outcome A) : option Z :=
  match o with
  | Done _ => Some 0
  | Exited c => Some c
  | Panicked => Some 2
  | Diverged => None
  end.

(** A world with the given service, a transport that never fails, and
    nothing printed or called yet. *)
Definition quiet (cs : gmap string (gmap string blob)) : world :=
  World cs [] [] [] [].

(** ** The listing as a tree (spec section 3 and 4.1) *)

(** Modelled from the spec: a [ListingNode] is a [Leaf], one object key, or
    a [Group], a common prefix with the nodes found by descending into
    it. *)
#[local] Unset Elimination Schemes.
Inductive ListingNode :=
  | Leaf (key : string)
  | Group (prefix : string) (children : list ListingNode).
#[local] Set Elimination Schemes.

(** Modelled from the spec: [buildListing] with its descent into every
    [Group] unfolded, [fuel] levels deep. *)
Fixpoint buildTree (fuel : nat) (keys : list string) (prefix : string) (d : ascii)
  : list ListingNode :=
  match fuel with
  | O => []
  | S n =>
      map (fun e => if IsDir e
                    then Group (Key e) (buildTree n keys (Key e) d)
                    else Leaf (Key e))
          (SDK.listEntries d keys prefix)
  end.

Definition maxLen (keys : list string) : nat :=
  foldr Nat.max 0%nat (String.length <$> keys).

(** Modelled from the spec: [buildListing(keys, prefix, delimiter)]; no key
    is longer than [maxLen keys], so no descent is deeper. *)
Definition buildListing (keys : list string) (prefix : string) (d : ascii)
  : list ListingNode :=
  buildTree (S (maxLen keys)) keys prefix d.

(** The object keys below a node, left to right. *)
Fixpoint leaves (t : ListingNode) : list string :=
  match t with
  | Leaf k => [k]
  | Group _ cs => flat_map leaves cs
  end.

(** The nodes of a tree in the order of a descent, as listing entries. *)
Fixpoint preorder (t : ListingNode) : list ListObject :=
  match t with
  | Leaf k => [{| Key := k; IsDir := false |}]
  | Group p cs => {| Key := p; IsDir := true |} :: flat_map preorder cs
  end.

(** The lines a descent prints for a node met at nesting depth [depth]. *)
Fixpoint render (depth : nat) (t : ListingNode) : list string :=
  match t with
  | Leaf k => [indentOf depth +:+ k +:+ nl]
  | Group p cs =>
      (indentOf depth +:+ p +:+ nl) :: flat_map (render (S depth)) cs
  end.

(** The nesting depth of an entry in the delimiter hierarchy: the number of
    delimiters before its last segment. *)
Definition level (d : ascii) (o : ListObject) : nat :=
  (countDelim d (Key o) - (if IsDir o then 1 else 0))%nat.

Fixpoint spaces (n : nat) : string :=
  match n with
  | O => ""
  | S n' => String " " (spaces n')
  end.

(** The line of an entry: two spaces per level, the key, a line feed. *)
Definition lineOf (d : ascii) (o : ListObject) : string :=
  spaces (2 * level d o) +:+ Key o +:+ nl.

(** ** Definitions used by the statements *)

(** The node [buildTree] makes of an entry. *)
Definition nodeOf (d : ascii) (keys : list string) (n : nat) (e : ListObject)
  : ListingNode :=
  if IsDir e then Group (Key e) (buildTree n keys (Key e) d) else Leaf (Key e).

(** The world after some more lines were printed and calls traced. *)
Definition emit (lines : list string) (cs : list sdkCall) (w : world) : world :=
  World (containers w) (faults w) (stdout w ++ lines) (stderr w) (calls w ++ cs).

(** The worlds a listing of bucket [b] with keys [keys] runs in: the
    transport does not fail and the bucket holds [keys]. *)
Definition listable (b : Bucket) (keys : list string) (w : world) : Prop :=
  faults w = [] ∧ SDK.bucketKeys b w = Some keys.

(** The bucket [listCmd] lists: the container's, narrowed to the prefix. *)
Definition listedBucket (fl : flags) : Bucket :=
  SDK.prefixedBucket {| bucketContainer := containerName fl; bucketPrefix := "" |}
                     (blobPrefix fl).

(** The keys [listCmd] sees in a container holding the blobs [m]. *)
Definition listedKeys (fl : flags) (m : gmap string blob) : list string :=
  omap (stripPrefix (blobPrefix fl)) (merge_sort String.le (elements (dom m))).

(** The leaf keys among listing entries. *)
Definition leafKeys (nodes : list ListObject) : list string :=
  omap (λ o, if IsDir o then None else Some (Key o)) nodes.

(** How a command ends when it rejects an empty blob key: the flag error
    is logged and the process exits with status 1; the service, the
    transport, the trace of calls and the standard output are as they
    were. *)
Definition keyRejection (w : world) : outcome unit * world :=
  (Exited 1, addStderr (errorString (FlagError "--blob-key") +:+ nl) w).



(** How a run started in [w] ends under the program's discipline: it
    returns with nothing logged (and the worlds related by [keep]), or it
    has logged one error and ended the process with status 1. *)
Definition orderly (keep : world → world → Prop) (w : world) {A}
    (r : outcome A * world) : Prop :=
  match r with
  | (Done _, w') => stderr w' = stderr w ∧ keep w w'
  | (Exited n, w') =>
      n = 1 ∧ ∃ e, stderr w' = stderr w ++ [errorString e +:+ nl]
  | (Panicked, _) => False
  | (Diverged, _) => False
  end.

Definition keepStore (w w' : world) : Prop := containers w' = containers w.


Section Messages.
Context `{GoRuntime}.

Definition listedLine (fl : flags) : string :=
  "Successfully listed from " +:+ quote (blobPrefix fl) +:+ nl.

Definition creatingLine (fl : flags) : string :=
  "Creating a container named " +:+ quote (containerName fl) +:+ nl.
Definition createdLine (fl : flags) : string :=
  "Successfully created container " +:+ quote (containerName fl) +:+ nl.
Definition deletingLine (fl : flags) : string :=
  "Deleting a container named " +:+ quote (containerName fl) +:+ nl.
Definition deletedLine (fl : flags) : string :=
  "Successfully deleted container " +:+ quote (containerName fl) +:+ nl.

End Messages.

(** ** Fixtures *)

(** A runtime for the examples: quoting adds the two quotes, every URL
    parses, content is sniffed as text, the credential is accepted. *)
Definition testRuntime : GoRuntime :=
  {| quote := λ s, dq +:+ s +:+ dq;
     urlValid := λ _, true;
     detectContentType := λ _, "text/plain; charset=utf-8";
     newCredential := λ _ _, None |}.

Definition sampleBlob : blob :=
  {| content := "v"; contentType := "text/plain; charset=utf-8" |}.

(** The key set of the scenario of spec section 8. *)
Definition sampleBlobs : gmap string blob :=
  list_to_map [("a/b", sampleBlob); ("a/c", sampleBlob);
               ("a/b/d", sampleBlob); ("x", sampleBlob)].

Definition sampleWorld : world := quiet {[ "c" := sampleBlobs ]}.

Definition sampleFlags : flags :=
  {| containerName := "c"; blobKey := "k"; blobValue := "hello";
     blobPrefix := "" |}.

(** A key [n] levels deep. *)
Fixpoint deepKey (n : nat) : string :=
  match n with
  | O => "x"
  | S n' => "a/" +:+ deepKey n'
  end.

Definition deepBlobs (n : nat) : gmap string blob := {[ deepKey n := sampleBlob ]}.

Definition deepWorld (n : nat) : world := quiet {[ "c" := deepBlobs n ]}.

(** A transport that answers the first call and times out on the second. *)
Definition timeoutWorld : world :=
  World {[ "c" := sampleBlobs ]} [None; Some Timeout] [] [] [].




(** ** Definitions used by the further properties *)

(** How [write] ends when it rejects an empty blob value. *)
Definition valueRejection (w : world) : outcome unit * world :=
  (Exited 1, addStderr (errorString (FlagError "--blob-value") +:+ nl) w).

(** The calls of a [write] that returns, and of a [read] that returns. *)
Definition writeTrace (fl : flags) : list sdkCall :=
  [CallOpenBucket (containerName fl); CallNewWriter (blobKey fl);
   CallWrite (blobValue fl +:+ nl); CallWriterClose; CallBucketClose].


(** The blob stored under a key of a container, if any. *)
Definition blobAt (w : world) (c k : string) : option blob :=
  containers w !! c ≫= (.!! k).

(** A call is a fetch of a listing iterator. *)
Definition isNext (c : sdkCall) : Prop := ∃ p, c = CallNext p.

(** From [w] to [w'] only fetches of listing iterators were made. *)
Definition nextOnly (w w' : world) : Prop :=
  ∃ cs, calls w' = calls w ++ cs ∧ Forall isNext cs.

(** How a listing that should print [full] ends when started in [w]: it
    returns having printed [full], or it has ended the process with status
    1 having printed some first lines of [full]; the service is as it
    was. *)
Definition partialListing (full : list string) (w : world)
    (r : outcome unit * world) : Prop :=
  containers (snd r) = containers w ∧
  match fst r with
  | Done _ => stdout (snd r) = stdout w ++ full
  | Exited n => n = 1 ∧ ∃ l, stdout (snd r) = stdout w ++ l ∧ l `prefix_of` full
  | Panicked => False
  | Diverged => False
  end.

Section MoreMessages.
Context `{GoRuntime}.

Definition writtenLine (fl : flags) : string :=
  "Successfully written " +:+ quote (blobValue fl) +:+ " to "
  +:+ quote (blobKey fl) +:+ nl.


(** The blob a [write] stores. *)
Definition writtenBlob (fl : flags) : blob :=
  {| content := blobValue fl +:+ nl;
     contentType := detectContentType (blobValue fl +:+ nl) |}.

End MoreMessages.


(** Flags that list under a prefix no sample key starts with. *)
Definition strangerFlags : flags :=
  {| containerName := "c"; blobKey := "k"; blobValue := "hello";
     blobPrefix := "zz" |}.

(** A runtime whose credential is refused. *)
Definition refusingRuntime : GoRuntime :=
  {| quote := λ s, dq +:+ s +:+ dq;
     urlValid := λ _, true;
     detectContentType := λ _, "text/plain; charset=utf-8";
     newCredential := λ _ _, Some (ArgError "illegal base64 data") |}.

(** * Lemmas *)

(** ** Lemmas on strings *)

Lemma app_cons_s x (a b : string) : String x a +:+ b = String x (a +:+ b).
Proof. reflexivity. Qed.

Lemma app_nil_l_s (b : string) : "" +:+ b = b.
Proof. reflexivity. Qed.

Ltac str_simpl := cbn; rewrite ?app_cons_s, ?app_nil_l_s.

Lemma app_assoc_s (a b c : string) : (a +:+ b) +:+ c = a +:+ (b +:+ c).
Proof. induction a as [|x a IH]; str_simpl; congruence. Qed.

Lemma app_nil_r_s (a : string) : a +:+ "" = a.
Proof. induction a as [|x a IH]; str_simpl; congruence. Qed.

Lemma length_app_s (a b : string) :
  String.length (a +:+ b) = (String.length a + String.length b)%nat.
Proof. induction a as [|x a IH]; str_simpl; cbn; congruence. Qed.

Lemma countDelim_app d (a b : string) :
  countDelim d (a +:+ b) = (countDelim d a + countDelim d b)%nat.
Proof. induction a as [|x a IH]; str_simpl; cbn; [done | rewrite IH; lia]. Qed.

Lemma stripPrefix_Some p k r : stripPrefix p k = Some r ↔ k = p +:+ r.
Proof.
  revert k. induction p as [|a p IH]; intros k; str_simpl.
  - split; congruence.
  - destruct k as [|b k].
    + split; discriminate.
    + case_decide as Hab.
      * subst b. rewrite IH. split; congruence.
      * split; [discriminate | congruence].
Qed.

Lemma stripPrefix_app p r : stripPrefix p (p +:+ r) = Some r.
Proof. by apply stripPrefix_Some. Qed.

Lemma cutDelim_None d r : cutDelim d r = None ↔ countDelim d r = 0%nat.
Proof.
  induction r as [|c r IH]; cbn; [done |].
  case_decide.
  - split; [discriminate | lia].
  - destruct (cutDelim d r); cbn.
    + split; [discriminate |]. intros Hc. destruct IH as [_ IH].
      discriminate IH; lia.
    + split; [| done]. intros _. by apply IH.
Qed.

Lemma cutDelim_Some d r seg :
  cutDelim d r = Some seg →
  ∃ u rest, seg = u +:+ String d "" ∧ r = seg +:+ rest ∧ countDelim d u = 0%nat.
Proof.
  revert seg. induction r as [|c r IH]; intros seg; cbn; [discriminate |].
  case_decide as Hc.
  - intros [= <-]. subst c. by exists "", r.
  - destruct (cutDelim d r) as [seg'|] eqn:Hcut; cbn; [| discriminate].
    intros [= <-]. destruct (IH seg' eq_refl) as (u & rest & -> & -> & Hu).
    exists (String c u), rest. cbn. rewrite decide_False by done. done.
Qed.

Lemma cutDelim_app d u rest :
  countDelim d u = 0%nat →
  cutDelim d (u +:+ String d rest) = Some (u +:+ String d "").
Proof.
  induction u as [|c u IH]; str_simpl; cbn.
  - intros _. by rewrite decide_True.
  - case_decide; [lia |]. intros Hu. by rewrite IH.
Qed.

Lemma spaces_two m : spaces m +:+ "  " = spaces (S (S m)).
Proof. induction m as [|m IH]; str_simpl; [done |]. by rewrite IH. Qed.

Lemma indentOf_spaces n : indentOf n = spaces (2 * n).
Proof.
  induction n as [|n IH]; [done |].
  cbn [indentOf]. rewrite IH, spaces_two.
  by replace (2 * S n)%nat with (S (S (2 * n))) by lia.
Qed.

(** ** Lemmas on lists *)

Section FlatMap.
Context {A B : Type}.
Implicit Types (f : A → list B) (l : list A).

Lemma elem_of_flat_map f l y : y ∈ flat_map f l ↔ ∃ x, x ∈ l ∧ y ∈ f x.
Proof.
  induction l as [|a l IH]; cbn.
  - split; [by intros ?%elem_of_nil | by intros (? & ?%elem_of_nil & _)].
  - rewrite elem_of_app, IH. split.
    + intros [Hy | (x & Hx & Hy)]; [exists a | exists x];
        split; auto using list_elem_of_here, list_elem_of_further.
    + intros (x & [-> | Hx]%elem_of_cons & Hy); [by left | right; eauto].
Qed.

Lemma NoDup_flat_map f l :
  NoDup l →
  (∀ x, x ∈ l → NoDup (f x)) →
  (∀ x1 x2 y, x1 ∈ l → x2 ∈ l → y ∈ f x1 → y ∈ f x2 → x1 = x2) →
  NoDup (flat_map f l).
Proof.
  induction 1 as [|a l Ha Hl IH]; intros Hf Hdisj; cbn; [constructor |].
  apply NoDup_app. split_and!.
  - apply Hf, list_elem_of_here.
  - intros y Hy (x & Hx & Hyx)%elem_of_flat_map.
    apply Ha. rewrite (Hdisj a x y); auto using list_elem_of_here, list_elem_of_further.
  - apply IH.
    + intros x Hx. apply Hf. by apply list_elem_of_further.
    + intros x1 x2 y H1 H2. apply Hdisj; by apply list_elem_of_further.
Qed.

Lemma flat_map_map {C} (g : C → A) f (l : list C) :
  flat_map f (map g l) = flat_map (λ x, f (g x)) l.
Proof. induction l as [|a l IH]; cbn; [done | by rewrite IH]. Qed.

Lemma flat_map_ext_elem f1 f2 l :
  (∀ x, x ∈ l → f1 x = f2 x) → flat_map f1 l = flat_map f2 l.
Proof.
  induction l as [|a l IH]; intros Hf; cbn; [done |].
  rewrite (Hf a), IH; auto using list_elem_of_here, list_elem_of_further.
Qed.

End FlatMap.

(** ** One level of the listing *)

Section Entries.
Variable d : ascii.

Lemma entryOf_is_Some p k :
  is_Some (SDK.entryOf d p k) ↔ is_Some (stripPrefix p k).
Proof.
  unfold SDK.entryOf. destruct (stripPrefix p k) as [r|].
  - destruct (cutDelim d r); split; eauto.
  - split; intros [? ?]; discriminate.
Qed.

(** A key is reported as itself when nothing but a last segment follows
    the prefix. *)
Lemma entryOf_leaf p k k' :
  SDK.entryOf d p k = Some {| Key := k'; IsDir := false |} ↔
  k' = k ∧ ∃ r, k = p +:+ r ∧ countDelim d r = 0%nat.
Proof.
  unfold SDK.entryOf. split.
  - destruct (stripPrefix p k) as [r|] eqn:Hp; [| discriminate].
    destruct (cutDelim d r) eqn:Hc; [discriminate |].
    intros [= <-]. split; [done |]. exists r.
    split; [by apply stripPrefix_Some | by apply cutDelim_None].
  - intros (-> & r & -> & Hr). rewrite stripPrefix_app.
    apply cutDelim_None in Hr. by rewrite Hr.
Qed.

(** A key is reported as the directory [D] when [D] is the prefix, one
    delimiter-free segment and a delimiter, and the key starts with [D]. *)
Lemma entryOf_dir p k D :
  SDK.entryOf d p k = Some {| Key := D; IsDir := true |} ↔
  ∃ u rest, D = p +:+ u +:+ String d "" ∧ countDelim d u = 0%nat
            ∧ k = D +:+ rest.
Proof.
  unfold SDK.entryOf. split.
  - destruct (stripPrefix p k) as [r|] eqn:Hp; [| discriminate].
    apply stripPrefix_Some in Hp as ->.
    destruct (cutDelim d r) as [seg|] eqn:Hc; [| discriminate].
    apply cutDelim_Some in Hc as (u & rest & -> & -> & Hu).
    intros [= <-]. exists u, rest. by rewrite !app_assoc_s.
  - intros (u & rest & -> & Hu & ->).
    rewrite !app_assoc_s, stripPrefix_app. str_simpl.
    by rewrite (cutDelim_app _ _ _ Hu).
Qed.

(** The keys reported as a directory are exactly the keys below it. *)
Lemma entryOf_dir_prefix p k0 D k :
  SDK.entryOf d p k0 = Some {| Key := D; IsDir := true |} →
  SDK.entryOf d p k = Some {| Key := D; IsDir := true |} ↔
  is_Some (stripPrefix D k).
Proof.
  intros (u & rest0 & HD & Hu & _)%entryOf_dir. split.
  - intros (? & rest & _ & _ & ->)%entryOf_dir. rewrite stripPrefix_app. eauto.
  - intros [rest ->%stripPrefix_Some]. apply entryOf_dir. eauto.
Qed.

Lemma entryOf_dir_length p k D :
  SDK.entryOf d p k = Some {| Key := D; IsDir := true |} →
  (String.length p < String.length D ≤ String.length k)%nat.
Proof.
  intros (u & rest & -> & _ & ->)%entryOf_dir.
  rewrite !length_app_s. cbn. lia.
Qed.

Lemma entryOf_dir_count p k D :
  SDK.entryOf d p k = Some {| Key := D; IsDir := true |} →
  countDelim d D = S (countDelim d p).
Proof.
  intros (u & rest & -> & Hu & _)%entryOf_dir.
  rewrite !countDelim_app, Hu. cbn. rewrite decide_True by done. lia.
Qed.

Lemma entryOf_leaf_count p k k' :
  SDK.entryOf d p k = Some {| Key := k'; IsDir := false |} →
  countDelim d k' = countDelim d p.
Proof.
  intros (-> & r & -> & Hr)%entryOf_leaf. rewrite countDelim_app. lia.
Qed.

Lemma elem_of_listEntries keys p e :
  e ∈ SDK.listEntries d keys p ↔ ∃ k, k ∈ keys ∧ SDK.entryOf d p k = Some e.
Proof.
  unfold SDK.listEntries. by rewrite elem_of_remove_dups, list_elem_of_omap.
Qed.

Lemma NoDup_listEntries keys p : NoDup (SDK.listEntries d keys p).
Proof. apply NoDup_remove_dups. Qed.

End Entries.

(** ** The tree of a key sequence *)

Lemma maxLen_ge (keys : list string) k :
  k ∈ keys → (String.length k ≤ maxLen keys)%nat.
Proof.
  unfold maxLen. induction 1 as [k l | k k' l _ IH]; cbn; lia.
Qed.

Lemma map_flat_map {A B C} (f : B → C) (g : A → list B) (l : list A) :
  map f (flat_map g l) = flat_map (λ x, map f (g x)) l.
Proof. induction l as [|a l IH]; cbn; [done | by rewrite map_app, IH]. Qed.

Section Tree.
Variable d : ascii.
Variable keys : list string.

Lemma buildTree_S n p :
  buildTree (S n) keys p d = map (nodeOf d keys n) (SDK.listEntries d keys p).
Proof. reflexivity. Qed.

Lemma no_key_below p k :
  (maxLen keys < String.length p)%nat → k ∈ keys → stripPrefix p k = None.
Proof.
  intros Hp Hk%maxLen_ge. destruct (stripPrefix p k) as [r|] eqn:Hr; [| done].
  apply stripPrefix_Some in Hr as ->. rewrite length_app_s in Hk. lia.
Qed.

Lemma listEntries_beyond p :
  (maxLen keys < String.length p)%nat → SDK.listEntries d keys p = [].
Proof.
  intros Hp. destruct (SDK.listEntries d keys p) as [|e l] eqn:He; [done |].
  assert (He' : e ∈ SDK.listEntries d keys p) by (rewrite He; left).
  apply elem_of_listEntries in He' as (k & Hk & Hek).
  assert (Hs : is_Some (stripPrefix p k)) by (apply (entryOf_is_Some d); eauto).
  rewrite (no_key_below p k Hp Hk) in Hs. by destruct Hs.
Qed.

(** A directory entry is longer than the prefix it was listed under and
    no longer than the longest key. *)
Lemma dir_entry_length p e :
  e ∈ SDK.listEntries d keys p → IsDir e = true →
  (String.length p < String.length (Key e) ≤ maxLen keys)%nat.
Proof.
  intros (k & Hk & Hek)%elem_of_listEntries Hd. destruct e as [D b].
  cbn in *. subst b. apply entryOf_dir_length in Hek.
  apply maxLen_ge in Hk. lia.
Qed.

(** Fuel beyond the length of the longest key changes nothing. *)
Lemma buildTree_fuel n1 n2 p :
  (maxLen keys < n1 + String.length p)%nat →
  (maxLen keys < n2 + String.length p)%nat →
  buildTree n1 keys p d = buildTree n2 keys p d.
Proof.
  revert n2 p. induction n1 as [|n1 IH]; intros n2 p H1 H2.
  - destruct n2 as [|n2]; [done |].
    rewrite buildTree_S, listEntries_beyond; [done | cbn in H1; lia].
  - destruct n2 as [|n2].
    + rewrite buildTree_S, listEntries_beyond; [done | cbn in H2; lia].
    + rewrite !buildTree_S. apply map_ext_in. intros e He%list_elem_of_In.
      unfold nodeOf. destruct (IsDir e) eqn:Hd; [| done].
      pose proof (dir_entry_length p e He Hd).
      f_equal. apply IH; lia.
Qed.

(** Every key below [p] is a leaf of the tree at [p], and only those; no
    leaf occurs twice. *)
Lemma leaves_buildTree n p :
  (maxLen keys < n + String.length p)%nat →
  NoDup (flat_map leaves (buildTree n keys p d)) ∧
  ∀ k, k ∈ flat_map leaves (buildTree n keys p d) ↔
       k ∈ keys ∧ is_Some (stripPrefix p k).
Proof.
  revert p. induction n as [|n IH]; intros p Hn.
  { cbn. split; [constructor |]. intros k. split; [by intros ?%elem_of_nil |].
    intros [Hk Hs]. rewrite (no_key_below p k) in Hs by (done || cbn in Hn; lia).
    by destruct Hs. }
  rewrite buildTree_S, flat_map_map.
  assert (Hnode : ∀ e, e ∈ SDK.listEntries d keys p →
            NoDup (leaves (nodeOf d keys n e)) ∧
            ∀ k, k ∈ leaves (nodeOf d keys n e) ↔
                 k ∈ keys ∧ SDK.entryOf d p k = Some e).
  { intros [D b] He. pose proof He as (k0 & Hk0 & He0)%elem_of_listEntries.
    unfold nodeOf. destruct b; cbn [IsDir Key leaves].
    - pose proof (dir_entry_length p _ He eq_refl) as HD. cbn in HD.
      destruct (IH D) as [Hnd Hin]; [lia |]. split; [done |].
      intros k. rewrite Hin. by rewrite (entryOf_dir_prefix d p k0 D k He0).
    - split; [apply NoDup_singleton |]. intros k. rewrite list_elem_of_singleton.
      pose proof He0 as [-> _]%entryOf_leaf. split.
      + by intros ->.
      + by intros [_ [-> _]%entryOf_leaf]. }
  split.
  - apply NoDup_flat_map; [apply NoDup_listEntries | by intros e He; apply Hnode |].
    intros e1 e2 k H1 H2 Hk1 Hk2.
    apply (Hnode e1 H1) in Hk1 as [_ Hk1]. apply (Hnode e2 H2) in Hk2 as [_ Hk2].
    congruence.
  - intros k. rewrite elem_of_flat_map. split.
    + intros (e & He & Hk). apply (Hnode e He) in Hk as [Hk Hek].
      split; [done |]. apply (entryOf_is_Some d). eauto.
    + intros [Hk [e He]%(entryOf_is_Some d)]. exists e. split.
      * apply elem_of_listEntries. eauto.
      * apply Hnode; [apply elem_of_listEntries; eauto | done].
Qed.

(** The lines of a descent are the lines of its nodes, each indented by
    its own level. *)
Lemma render_lineOf n p :
  flat_map (render (countDelim d p)) (buildTree n keys p d) =
  map (lineOf d) (flat_map preorder (buildTree n keys p d)).
Proof.
  revert p. induction n as [|n IH]; intros p; [done |].
  rewrite buildTree_S, map_flat_map, !flat_map_map.
  apply flat_map_ext_elem. intros [D b] (k & Hk & He)%elem_of_listEntries.
  unfold nodeOf, lineOf, level. destruct b; cbn [IsDir Key render preorder map].
  - rewrite <- (entryOf_dir_count d p k D He), IH.
    rewrite (entryOf_dir_count d p k D He), indentOf_spaces.
    do 3 f_equal. lia.
  - rewrite (entryOf_leaf_count d p k D He), indentOf_spaces.
    do 3 f_equal. lia.
Qed.

End Tree.

(** ** Running the closure *)

Lemma emit_emit l1 c1 l2 c2 w :
  emit l2 c2 (emit l1 c1 w) = emit (l1 ++ l2) (c1 ++ c2) w.
Proof. unfold emit; cbn. by rewrite !app_assoc. Qed.

Lemma addStdout_emit s w : addStdout s w = emit [s] [] w.
Proof. unfold addStdout, emit. by rewrite app_nil_r. Qed.

Lemma addCall_emit c w : addCall c w = emit [] [c] w.
Proof. unfold addCall, emit. by rewrite app_nil_r. Qed.

Lemma bind_done {A B} (c : Cmd A) (k : A → Cmd B) w a w' :
  c w = (Done a, w') → bind c k w = k a w'.
Proof. intros Hc. unfold bind. by rewrite Hc. Qed.


Lemma transport_quiet c w :
  faults w = [] → SDK.transport c w = (Done None, addCall c w).
Proof. intros Hf. unfold SDK.transport. cbn. by rewrite Hf. Qed.

Lemma bucketKeys_emit b l cs w :
  SDK.bucketKeys b (emit l cs w) = SDK.bucketKeys b w.
Proof. reflexivity. Qed.

Lemma listLoop_nil_quiet recur indent prefix w :
  faults w = [] →
  listLoop recur indent prefix false [] w = (Done tt, emit [] [CallNext prefix] w).
Proof.
  intros Hw. cbn. unfold bind, SDK.iterNext, bind.
  rewrite transport_quiet by done. cbn. by rewrite addCall_emit.
Qed.

Lemma listLoop_cons_quiet recur indent prefix e rest w :
  faults w = [] →
  listLoop recur indent prefix false (e :: rest) w =
  ((if IsDir e then recur (Key e) (indent +:+ "  ") else ret tt) ;;
   listLoop recur indent prefix false rest)
    (emit [indent +:+ Key e +:+ nl] [CallNext prefix] w).
Proof.
  intros Hw. cbn [listLoop]. unfold bind at 1, SDK.iterNext, bind at 1.
  rewrite transport_quiet by done. cbn.
  unfold bind at 1, printf, modify.
  by rewrite addCall_emit, addStdout_emit, emit_emit.
Qed.

Lemma listable_emit b keys l cs w :
  listable b keys w → listable b keys (emit l cs w).
Proof. by intros [? ?]. Qed.

(** The loop over the entries of one level, on a transport that does not
    fail: it prints the line of each entry, followed by what the recursive
    call prints for a directory. *)
Lemma listLoop_run b keys recur indent prefix (out : ListObject → list string)
    pending :
  (∀ e w, e ∈ pending → IsDir e = true → listable b keys w →
     ∃ cs, recur (Key e) (indent +:+ "  ") w = (Done tt, emit (out e) cs w)) →
  ∀ w, listable b keys w →
  ∃ cs, listLoop recur indent prefix false pending w =
        (Done tt,
         emit (flat_map (λ e, (indent +:+ Key e +:+ nl)
                              :: (if IsDir e then out e else [])) pending)
              cs w).
Proof.
  induction pending as [|e rest IH]; intros Hrec w Hw.
  - exists [CallNext prefix]. apply listLoop_nil_quiet, Hw.
  - rewrite listLoop_cons_quiet by apply Hw.
    set (w1 := emit _ _ w).
    assert (Hw1 : listable b keys w1) by by apply listable_emit.
    assert (Hbody : ∃ cs, (if IsDir e then recur (Key e) (indent +:+ "  ")
                           else ret tt) w1
                          = (Done tt, emit (if IsDir e then out e else []) cs w1)).
    { destruct (IsDir e) eqn:Hd.
      - apply Hrec; [left | done | done].
      - exists []. unfold ret, emit. destruct w1; cbn. by rewrite !app_nil_r. }
    destruct Hbody as [cs1 Hbody]. rewrite (bind_done _ _ _ _ _ Hbody).
    destruct (IH (λ e' w' He', Hrec e' w' (list_elem_of_further _ _ _ He'))
                 (emit (if IsDir e then out e else []) cs1 w1)) as [cs2 Hrest];
      [by apply listable_emit |].
    rewrite Hrest. exists ([CallNext prefix] ++ cs1 ++ cs2).
    unfold w1. by rewrite !emit_emit.
Qed.

Lemma list'_S d n b p indent :
  list' d (S n) b p indent =
  (iter <- SDK.bucketList b {| Delimiter := d; Prefix := p |} ;;
   listLoop (list' d n b) indent (itPrefix iter) (itMissing iter)
            (itPending iter)).
Proof. reflexivity. Qed.

(** The closure on a transport that does not fail: with fuel for the
    longest key it returns, having printed the tree below [p]. *)
Lemma list'_run d b keys n p depth w :
  listable b keys w →
  (maxLen keys ≤ n + String.length p)%nat →
  ∃ cs, list' d (S n) b p (indentOf depth) w =
        (Done tt,
         emit (flat_map (render depth) (buildTree (S n) keys p d)) cs w).
Proof.
  revert p depth w. induction n as [|n IH]; intros p depth w Hw Hn.
  all: rewrite list'_S; unfold bind at 1, SDK.bucketList, bind at 1, gets;
    destruct Hw as [Hf Hk]; rewrite Hk; cbn [ret itPrefix itMissing itPending
      Delimiter Prefix].
  - destruct (listLoop_run b keys (list' d 0 b) (indentOf depth) p
                (λ _, []) (SDK.listEntries d keys p)) with (w := w)
      as [cs Hrun]; [| done |].
    { intros e w' He Hd _. pose proof (dir_entry_length d keys p e He Hd). lia. }
    rewrite Hrun. exists cs. do 2 f_equal.
    rewrite buildTree_S, flat_map_map. apply flat_map_ext_elem.
    intros e He. unfold nodeOf. destruct (IsDir e) eqn:Hd; [| done].
    pose proof (dir_entry_length d keys p e He Hd). lia.
  - destruct (listLoop_run b keys (list' d (S n) b) (indentOf depth) p
                (λ e, flat_map (render (S depth)) (buildTree (S n) keys (Key e) d))
                (SDK.listEntries d keys p)) with (w := w)
      as [cs Hrun]; [| done |].
    { intros e w' He Hd Hw'. pose proof (dir_entry_length d keys p e He Hd).
      apply (IH (Key e) (S depth) w' Hw'). lia. }
    rewrite Hrun. exists cs. do 2 f_equal.
    rewrite (buildTree_S d keys (S n)), flat_map_map. apply flat_map_ext_elem.
    intros e He. unfold nodeOf. by destruct (IsDir e).
Qed.

(** ** The listed keys *)

Lemma NoDup_omap_inj {A B} (f : A → option B) (l : list A) :
  (∀ x y z, f x = Some z → f y = Some z → x = y) →
  NoDup l → NoDup (omap f l).
Proof.
  intros Hinj. induction 1 as [|a l Ha Hl IH]; cbn; [constructor |].
  destruct (f a) as [b|] eqn:Hb; [| done].
  constructor; [| done]. intros (y & Hy & Hfy)%list_elem_of_omap.
  by rewrite (Hinj a y b Hb Hfy) in Ha.
Qed.

Lemma listedKeys_bucketKeys fl m w :
  containers w !! containerName fl = Some m →
  SDK.bucketKeys (listedBucket fl) w = Some (listedKeys fl m).
Proof. intros Hm. unfold SDK.bucketKeys. cbn. by rewrite Hm. Qed.

Lemma NoDup_listedKeys fl m : NoDup (listedKeys fl m).
Proof.
  apply NoDup_omap_inj.
  - intros x y z ->%stripPrefix_Some ->%stripPrefix_Some. done.
  - rewrite merge_sort_Permutation. apply NoDup_elements.
Qed.

Lemma listedKeys_Permutation fl m :
  listedKeys fl m ≡ₚ omap (stripPrefix (blobPrefix fl)) (elements (dom m)).
Proof. unfold listedKeys. by rewrite merge_sort_Permutation. Qed.


(** The leaves of the whole tree are the keys, each once. *)
Lemma leaves_buildListing d keys :
  NoDup keys →
  NoDup (flat_map leaves (buildListing keys "" d)) ∧
  flat_map leaves (buildListing keys "" d) ≡ₚ keys.
Proof.
  intros Hnd. unfold buildListing.
  destruct (leaves_buildTree d keys (S (maxLen keys)) "") as [Hl Hin];
    [cbn; lia |].
  split; [done |]. apply NoDup_Permutation; [done | done |].
  intros k. rewrite Hin. cbn. split; [by intros [? _] | eauto].
Qed.

Section ListCmd.
Context `{GoRuntime}.

(** [listCmd] on a transport that does not fail and a container that
    exists: it returns, having printed the tree of the listed keys and the
    closing line. *)
Lemma listCmd_run fuel fl w m :
  faults w = [] →
  containerName fl ≠ "" →
  containers w !! containerName fl = Some m →
  (maxLen (listedKeys fl m) < fuel)%nat →
  ∃ cs, listCmd fuel fl w =
        (Done tt,
         emit (flat_map (render 0) (buildListing (listedKeys fl m) "" "/")
               ++ [listedLine fl]) cs w).
Proof.
  intros Hf Hc Hm Hfuel. destruct fuel as [|n]; [lia |].
  unfold listCmd. unfold bind at 1, SDK.openBucket, bind at 1, modify.
  rewrite decide_False by done. cbn [ret].
  rewrite addCall_emit.
  set (w0 := emit [] [CallOpenBucket (containerName fl)] w).
  destruct (list'_run "/" (listedBucket fl) (listedKeys fl m) n "" 0 w0)
    as [cs Hrun].
  { split; [done |]. by apply listedKeys_bucketKeys. }
  { cbn. lia. }
  change (SDK.prefixedBucket _ _) with (listedBucket fl).
  change (indentOf 0) with "" in Hrun.
  rewrite (bind_done _ _ _ _ _ Hrun).
  exists ([CallOpenBucket (containerName fl)] ++ cs
          ++ [CallBucketClose; CallBucketClose])%list.
  unfold bind, printf, SDK.bucketClose, modify. f_equal.
  rewrite addStdout_emit, !addCall_emit. unfold w0. rewrite !emit_emit.
  rewrite !app_nil_r. cbn [app]. unfold buildListing.
  by rewrite (buildTree_fuel "/" _ (S n) (S (maxLen (listedKeys fl m))) "")
    by (cbn; lia).
Qed.

End ListCmd.

(** * The claims *)

(** C1: for every key set and every delimiter, the listing splits the keys
    into leaves and groups so that the leaves of the whole tree are the
    keys, each exactly once; the [list] closure prints that tree, for any
    delimiter, and [listCmd] prints it for ["/"].  The keys are those of
    the container [m] under the listing prefix, with the prefix removed. *)
Theorem C1_listing_partitions_keys `{GoRuntime} fl w (m : gmap string blob) :
  faults w = [] →
  containerName fl ≠ "" →
  containers w !! containerName fl = Some m →
  (∀ d, NoDup (flat_map leaves (buildListing (listedKeys fl m) "" d)) ∧
        flat_map leaves (buildListing (listedKeys fl m) "" d)
        ≡ₚ omap (stripPrefix (blobPrefix fl)) (elements (dom m))) ∧
  (∀ d fuel, (maxLen (listedKeys fl m) < fuel)%nat →
     ∃ cs, list' d fuel (listedBucket fl) "" "" w =
           (Done tt,
            emit (flat_map (render 0) (buildListing (listedKeys fl m) "" d))
                 cs w)) ∧
  (∀ fuel, (maxLen (listedKeys fl m) < fuel)%nat →
     ∃ cs, listCmd fuel fl w =
           (Done tt,
            emit (flat_map (render 0) (buildListing (listedKeys fl m) "" "/")
                  ++ [listedLine fl]) cs w)).
Proof.
  intros Hf Hc Hm. split_and!.
  - intros d.
    destruct (leaves_buildListing d (listedKeys fl m) (NoDup_listedKeys fl m))
      as [Hnd Hperm].
    split; [done |]. by rewrite Hperm, listedKeys_Permutation.
  - intros d [|n] Hfuel; [lia |].
    destruct (list'_run d (listedBucket fl) (listedKeys fl m) n "" 0 w)
      as [cs Hrun].
    { split; [done | by apply listedKeys_bucketKeys]. }
    { cbn. lia. }
    exists cs. change (indentOf 0) with "" in Hrun. rewrite Hrun.
    unfold buildListing.
    by rewrite (buildTree_fuel d _ (S n) (S (maxLen (listedKeys fl m))) "")
      by (cbn; lia).
  - intros fuel Hfuel. by apply listCmd_run.
Qed.

Lemma C1_listing_partitions_keys_witness :
  flat_map leaves (buildListing (listedKeys sampleFlags sampleBlobs) "" "/")
    ≡ₚ omap (stripPrefix (blobPrefix sampleFlags)) (elements (dom sampleBlobs)) ∧
  ∃ cs, @listCmd testRuntime 8 sampleFlags sampleWorld =
        (Done tt,
         emit (flat_map (render 0)
                 (buildListing (listedKeys sampleFlags sampleBlobs) "" "/")
               ++ [@listedLine testRuntime sampleFlags]) cs sampleWorld).
Proof.
  destruct (@C1_listing_partitions_keys testRuntime sampleFlags sampleWorld
              sampleBlobs) as (Hleaves & _ & Hcmd);
    [reflexivity | discriminate | reflexivity |].
  split; [apply Hleaves | apply Hcmd; vm_compute; lia].
Defined.

(** The scenario of spec section 8, evaluated: [a/b] is a leaf next to the
    group [a/b/]. *)
Example scenario_tree :
  buildListing (listedKeys sampleFlags sampleBlobs) "" "/" =
  [Group "a/" [Leaf "a/b"; Group "a/b/" [Leaf "a/b/d"]; Leaf "a/c"];
   Leaf "x"].
Proof. vm_compute. reflexivity. Qed.

(** C2: when the keys hold both [k] and a longer key starting with [k]
    and the delimiter, the level at which [k] is listed (the prefix [p] of
    [k] up to its last segment) reports [k] as a leaf and [k + delimiter]
    as a separate group, whose children do not contain [k]; the closure
    prints exactly that level. *)
Theorem C2_key_equal_to_group_prefix_is_leaf d b keys k rest p r n depth w :
  listable b keys w →
  k ∈ keys →
  k +:+ String d rest ∈ keys →
  k = p +:+ r →
  countDelim d r = 0%nat →
  (maxLen keys ≤ n + String.length p)%nat →
  ∃ cs children,
    list' d (S n) b p (indentOf depth) w =
      (Done tt, emit (flat_map (render depth) (buildTree (S n) keys p d)) cs w) ∧
    Leaf k ∈ buildTree (S n) keys p d ∧
    Group (k +:+ String d "") children ∈ buildTree (S n) keys p d ∧
    k ∉ flat_map leaves children.
Proof.
  intros Hw Hk Hk' Hkp Hr Hn.
  destruct (list'_run d b keys n p depth w Hw Hn) as [cs Hrun].
  exists cs, (buildTree n keys (k +:+ String d "") d).
  assert (Hleaf : SDK.entryOf d p k = Some {| Key := k; IsDir := false |}).
  { apply entryOf_leaf. eauto. }
  assert (Hdir : SDK.entryOf d p (k +:+ String d rest)
                 = Some {| Key := k +:+ String d ""; IsDir := true |}).
  { apply entryOf_dir. exists r, rest. subst k.
    rewrite !app_assoc_s. str_simpl. done. }
  split_and!; [done | | |].
  - rewrite buildTree_S. apply list_elem_of_In, in_map_iff.
    exists {| Key := k; IsDir := false |}. split; [done |].
    apply list_elem_of_In, elem_of_listEntries. eauto.
  - rewrite buildTree_S. apply list_elem_of_In, in_map_iff.
    exists {| Key := k +:+ String d ""; IsDir := true |}. split; [done |].
    apply list_elem_of_In, elem_of_listEntries. eauto.
  - destruct (leaves_buildTree d keys n (k +:+ String d "")) as [_ Hin].
    { subst k. rewrite !length_app_s. cbn. lia. }
    rewrite Hin. intros [_ [x Hx%stripPrefix_Some]].
    apply (f_equal String.length) in Hx. rewrite !length_app_s in Hx.
    cbn in Hx. lia.
Qed.

Lemma C2_key_equal_to_group_prefix_is_leaf_witness :
  ∃ cs children,
    list' "/" 6 (listedBucket sampleFlags) "a/" (indentOf 1) sampleWorld =
      (Done tt,
       emit (flat_map (render 1)
               (buildTree 6 (listedKeys sampleFlags sampleBlobs) "a/" "/"))
            cs sampleWorld) ∧
    Leaf "a/b" ∈ buildTree 6 (listedKeys sampleFlags sampleBlobs) "a/" "/" ∧
    Group ("a/b" +:+ "/") children
      ∈ buildTree 6 (listedKeys sampleFlags sampleBlobs) "a/" "/" ∧
    "a/b" ∉ flat_map leaves children.
Proof.
  apply (C2_key_equal_to_group_prefix_is_leaf "/" (listedBucket sampleFlags)
           (listedKeys sampleFlags sampleBlobs) "a/b" "d" "a/" "b" 5 1
           sampleWorld).
  - split; reflexivity.
  - vm_compute. do 2 constructor.
  - vm_compute. do 3 constructor.
  - reflexivity.
  - reflexivity.
  - vm_compute. lia.
Defined.

Lemma leafKeys_flat_map {A} (g : A → list ListObject) (l : list A) :
  leafKeys (flat_map g l) = flat_map (λ x, leafKeys (g x)) l.
Proof.
  unfold leafKeys. induction l as [|a l IH]; cbn; [done |].
  by rewrite omap_app, IH.
Qed.

(** The leaf entries met by a descent are the leaves of the tree. *)
Lemma leafKeys_preorder d keys n p :
  leafKeys (flat_map preorder (buildTree n keys p d)) =
  flat_map leaves (buildTree n keys p d).
Proof.
  revert p. induction n as [|n IH]; intros p; [done |].
  rewrite buildTree_S, leafKeys_flat_map, !flat_map_map.
  apply flat_map_ext_elem. intros e _. unfold nodeOf.
  destruct (IsDir e); cbn [preorder leaves]; [| done].
  apply IH.
Qed.




(** The lines of the scenario, as printed. *)
Example scenario_lines :
  stdout (snd (@listCmd testRuntime 8 sampleFlags sampleWorld)) =
  ["a/" +:+ nl; "  a/b" +:+ nl; "  a/b/" +:+ nl; "    a/b/d" +:+ nl;
   "  a/c" +:+ nl; "x" +:+ nl;
   "Successfully listed from " +:+ dq +:+ dq +:+ nl].
Proof. vm_compute. reflexivity. Qed.

(** ** Depth *)

Lemma countDelim_deepKey n : countDelim "/" (deepKey n) = n.
Proof.
  induction n as [|n IH]; [done |].
  cbn [deepKey]. rewrite countDelim_app, IH. done.
Qed.

Lemma length_deepKey n : String.length (deepKey n) = (2 * n + 1)%nat.
Proof.
  induction n as [|n IH]; [done |].
  cbn [deepKey]. rewrite length_app_s, IH. cbn. lia.
Qed.

Lemma listedKeys_deep n : listedKeys sampleFlags (deepBlobs n) = [deepKey n].
Proof.
  unfold listedKeys, deepBlobs. rewrite dom_singleton_L, elements_singleton.
  reflexivity.
Qed.

Section Depth.
Context `{GoRuntime}.

(** However deep the keys, [listCmd] returns on a transport that does not
    fail, nothing is logged, and every key is printed at its own depth. *)
Lemma listCmd_keys_printed fuel fl w (m : gmap string blob) :
  faults w = [] →
  containerName fl ≠ "" →
  containers w !! containerName fl = Some m →
  (maxLen (listedKeys fl m) < fuel)%nat →
  ∃ w', listCmd fuel fl w = (Done tt, w') ∧
        stderr w' = stderr w ∧
        ∀ k, k ∈ listedKeys fl m →
             spaces (2 * countDelim "/" k) +:+ k +:+ nl ∈ stdout w'.
Proof.
  intros Hf Hc Hm Hfuel.
  destruct (listCmd_run fuel fl w m Hf Hc Hm Hfuel) as [cs Hrun].
  eexists. split; [exact Hrun |]. split; [done |].
  intros k Hk. cbn [emit stdout]. rewrite !elem_of_app. right. left.
  unfold buildListing.
  rewrite (render_lineOf "/" (listedKeys fl m) _ "").
  apply list_elem_of_In, in_map_iff.
  exists {| Key := k; IsDir := false |}. split.
  { unfold lineOf, level. cbn. by rewrite Nat.sub_0_r. }
  destruct (leaves_buildListing "/" (listedKeys fl m) (NoDup_listedKeys fl m))
    as [_ Hperm].
  unfold buildListing in Hperm. rewrite <- Hperm, <- leafKeys_preorder in Hk.
  apply list_elem_of_omap in Hk as ([k' b] & Ho & Hkey).
  cbn in Hkey. destruct b; [discriminate |]. injection Hkey as ->.
  by apply list_elem_of_In.
Qed.

End Depth.

(** C7, as the program has it: the descent has no depth cap.  For every
    key set, however deep its hierarchy, on a transport that does not fail
    and with fuel for the longest key, [listCmd] returns normally, logs
    nothing, and prints every key at its own depth, two spaces for each
    delimiter in it. *)
Theorem C7_listing_depth_is_not_capped `{GoRuntime} fuel fl w
    (m : gmap string blob) :
  faults w = [] →
  containerName fl ≠ "" →
  containers w !! containerName fl = Some m →
  (maxLen (listedKeys fl m) < fuel)%nat →
  ∃ w', listCmd fuel fl w = (Done tt, w') ∧
        exitStatus (fst (listCmd fuel fl w)) = Some 0 ∧
        stderr w' = stderr w ∧
        ∀ k, k ∈ listedKeys fl m →
             spaces (2 * countDelim "/" k) +:+ k +:+ nl ∈ stdout w'.
Proof.
  intros Hf Hc Hm Hfuel.
  destruct (listCmd_keys_printed fuel fl w m Hf Hc Hm Hfuel)
    as (w' & Hrun & Herr & Hout).
  exists w'. rewrite Hrun. done.
Qed.

Lemma C7_listing_depth_is_not_capped_witness :
  ∃ w', @listCmd testRuntime 8 sampleFlags sampleWorld = (Done tt, w') ∧
        exitStatus (fst (@listCmd testRuntime 8 sampleFlags sampleWorld))
          = Some 0 ∧
        stderr w' = stderr sampleWorld ∧
        ∀ k, k ∈ listedKeys sampleFlags sampleBlobs →
             spaces (2 * countDelim "/" k) +:+ k +:+ nl ∈ stdout w'.
Proof.
  apply (@C7_listing_depth_is_not_capped testRuntime 8 sampleFlags sampleWorld
           sampleBlobs);
    [reflexivity | discriminate | reflexivity | vm_compute; lia].
Defined.

(** C7, as the claim has it, fails: a key 1001 levels deep, beyond the cap
    of 1000, is listed to the end; the command returns normally, logs no
    error, and prints the key under 2002 spaces. *)
Lemma C7_depth_cap_counterexample :
  (1000 < countDelim "/" (deepKey 1001))%nat ∧
  listedKeys sampleFlags (deepBlobs 1001) = [deepKey 1001] ∧
  ∀ fuel, (2003 < fuel)%nat →
    ∃ w', @listCmd testRuntime fuel sampleFlags (deepWorld 1001) = (Done tt, w') ∧
          stderr w' = [] ∧
          spaces 2002 +:+ deepKey 1001 +:+ nl ∈ stdout w'.
Proof.
  split; [rewrite countDelim_deepKey; lia |].
  split; [apply listedKeys_deep |].
  intros fuel Hfuel.
  destruct (@listCmd_keys_printed testRuntime fuel sampleFlags (deepWorld 1001)
              (deepBlobs 1001)) as (w' & Hrun & Herr & Hout).
  - reflexivity.
  - discriminate.
  - apply lookup_singleton_eq.
  - rewrite listedKeys_deep. unfold maxLen. cbn [fmap list_fmap foldr].
    rewrite length_deepKey. lia.
  - exists w'. split; [done |]. split; [done |].
    specialize (Hout (deepKey 1001)). rewrite countDelim_deepKey in Hout.
    apply Hout. rewrite listedKeys_deep. left.
Qed.

(** ** Running the straight-line commands *)

(** Reduce the projections of the worlds built along a run. *)
Ltac world_simpl :=
  unfold addCall, addStdout, addStderr, setFaults, setContainers;
  cbn -[lookup insert delete errorString].

(** Unfold a command down to the world it leaves, splitting on the fault
    script wherever a call consults it. *)
Ltac run_cmd :=
  unfold bind, ret, logFatal, osExit, panic, printf, modify, gets,
    SDK.containerCreate, SDK.containerDelete, SDK.openBucket, SDK.newWriter,
    SDK.writerWrite, SDK.writerClose, SDK.newReader, SDK.ioCopy,
    SDK.bucketClose, SDK.readerClose, SDK.transport, bind, ret, modify, gets;
  world_simpl.

Ltac split_faults :=
  repeat match goal with
         | |- context [match ?l with [] => _ | _ :: _ => _ end] =>
             destruct l as [|[?|] ?]; world_simpl
         | |- context [match ?x with Some _ => _ | None => _ end] =>
             destruct x; world_simpl
         end.

Section Containers.
Context `{GoRuntime}.

Lemma createContainerCmd_absent fl w :
  faults w = [] → urlValid (containerURLOf fl) = true →
  containers w !! containerName fl = None →
  createContainerCmd fl w =
  (Done tt,
   World (<[containerName fl := ∅]> (containers w)) []
         (stdout w ++ [creatingLine fl; createdLine fl]) (stderr w)
         (calls w ++ [CallCreate (containerName fl)])).
Proof.
  intros Hf Hu Hc. unfold createContainerCmd. rewrite Hu. run_cmd.
  rewrite Hf. world_simpl. rewrite Hc. world_simpl. by rewrite <- app_assoc.
Qed.

Lemma createContainerCmd_present fl w m :
  faults w = [] → urlValid (containerURLOf fl) = true →
  containers w !! containerName fl = Some m →
  createContainerCmd fl w =
  (Exited 1,
   World (containers w) [] (stdout w ++ [creatingLine fl])
         (stderr w ++ [errorString (StoreError Conflict) +:+ nl])
         (calls w ++ [CallCreate (containerName fl)])).
Proof.
  intros Hf Hu Hc. unfold createContainerCmd. rewrite Hu. run_cmd.
  rewrite Hf. world_simpl. by rewrite Hc.
Qed.

Lemma deleteContainerCmd_present fl w m :
  faults w = [] → urlValid (containerURLOf fl) = true →
  containers w !! containerName fl = Some m →
  deleteContainerCmd fl w =
  (Done tt,
   World (delete (containerName fl) (containers w)) []
         (stdout w ++ [deletingLine fl; deletedLine fl]) (stderr w)
         (calls w ++ [CallDelete (containerName fl)])).
Proof.
  intros Hf Hu Hc. unfold deleteContainerCmd. rewrite Hu. run_cmd.
  rewrite Hf. world_simpl. rewrite Hc. world_simpl. by rewrite <- app_assoc.
Qed.

Lemma deleteContainerCmd_absent fl w :
  faults w = [] → urlValid (containerURLOf fl) = true →
  containers w !! containerName fl = None →
  deleteContainerCmd fl w =
  (Exited 1,
   World (containers w) [] (stdout w ++ [deletingLine fl])
         (stderr w ++ [errorString (StoreError NotFound) +:+ nl])
         (calls w ++ [CallDelete (containerName fl)])).
Proof.
  intros Hf Hu Hc. unfold deleteContainerCmd. rewrite Hu. run_cmd.
  rewrite Hf. world_simpl. by rewrite Hc.
Qed.

End Containers.

(** C3, as the program has it: on a transport that does not fail, the
    first [create-container] of an absent container succeeds and creates
    it, and a second one is refused by the service: the command logs the
    error and ends the process with status 1, the container staying as it
    was; the first [delete-container] then succeeds and removes it, and a
    second one ends the process with status 1.  No run reports
    [AlreadyExists] or [AlreadyAbsent]. *)
Theorem C3_second_create_or_delete_is_fatal `{GoRuntime} fl w :
  faults w = [] →
  urlValid (containerURLOf fl) = true →
  containers w !! containerName fl = None →
  ∃ w1 w2 w3 w4,
    createContainerCmd fl w = (Done tt, w1) ∧
    containers w1 = <[containerName fl := ∅]> (containers w) ∧
    createContainerCmd fl w1 = (Exited 1, w2) ∧
    containers w2 = containers w1 ∧
    stderr w2 = stderr w ++ [errorString (StoreError Conflict) +:+ nl] ∧
    deleteContainerCmd fl w1 = (Done tt, w3) ∧
    containers w3 = containers w ∧
    deleteContainerCmd fl w3 = (Exited 1, w4) ∧
    containers w4 = containers w3 ∧
    stderr w4 = stderr w ++ [errorString (StoreError NotFound) +:+ nl].
Proof.
  intros Hf Hu Hc.
  pose proof (createContainerCmd_absent fl w Hf Hu Hc) as H1.
  set (w1 := World _ _ _ _ _) in H1.
  assert (Hc1 : containers w1 !! containerName fl = Some ∅)
    by apply lookup_insert_eq.
  pose proof (createContainerCmd_present fl w1 ∅ eq_refl Hu Hc1) as H2.
  pose proof (deleteContainerCmd_present fl w1 ∅ eq_refl Hu Hc1) as H3.
  set (w3 := World _ _ _ _ _) in H3.
  assert (Hc3 : containers w3 = containers w).
  { cbn. rewrite delete_insert_eq. by apply delete_id. }
  assert (Hc3' : containers w3 !! containerName fl = None) by by rewrite Hc3.
  pose proof (deleteContainerCmd_absent fl w3 eq_refl Hu Hc3') as H4.
  eexists w1, _, w3, _. split_and!; done.
Qed.

Lemma C3_second_create_or_delete_is_fatal_witness :
  ∃ w1 w2 w3 w4,
    @createContainerCmd testRuntime sampleFlags (quiet ∅) = (Done tt, w1) ∧
    containers w1 = <[containerName sampleFlags := ∅]> (containers (quiet ∅)) ∧
    @createContainerCmd testRuntime sampleFlags w1 = (Exited 1, w2) ∧
    containers w2 = containers w1 ∧
    stderr w2 = stderr (quiet ∅) ++ [errorString (StoreError Conflict) +:+ nl] ∧
    @deleteContainerCmd testRuntime sampleFlags w1 = (Done tt, w3) ∧
    containers w3 = containers (quiet ∅) ∧
    @deleteContainerCmd testRuntime sampleFlags w3 = (Exited 1, w4) ∧
    containers w4 = containers w3 ∧
    stderr w4 = stderr (quiet ∅) ++ [errorString (StoreError NotFound) +:+ nl].
Proof.
  apply (@C3_second_create_or_delete_is_fatal testRuntime sampleFlags (quiet ∅));
    reflexivity.
Defined.

(** C3, as the claim has it, fails: the second [create-container] and the
    second [delete-container] of the same container end with status 1 and
    an error in the log. *)
Lemma C3_idempotence_counterexample :
  fst (@createContainerCmd testRuntime sampleFlags (quiet ∅)) = Done tt ∧
  (let w1 := snd (@createContainerCmd testRuntime sampleFlags (quiet ∅)) in
   fst (@createContainerCmd testRuntime sampleFlags w1) = Exited 1 ∧
   stderr (snd (@createContainerCmd testRuntime sampleFlags w1))
     = ["conflict" +:+ nl]) ∧
  fst (@deleteContainerCmd testRuntime sampleFlags sampleWorld) = Done tt ∧
  (let w1 := snd (@deleteContainerCmd testRuntime sampleFlags sampleWorld) in
   fst (@deleteContainerCmd testRuntime sampleFlags w1) = Exited 1 ∧
   stderr (snd (@deleteContainerCmd testRuntime sampleFlags w1))
     = ["not found" +:+ nl]).
Proof. vm_compute. repeat split. Qed.

(** ** Validation of the blob key *)

Lemma app_cons_neq {A} (l l' : list A) x : l ++ x :: l' ≠ l.
Proof.
  intros Hl. apply (f_equal length) in Hl. rewrite length_app in Hl.
  cbn in Hl. lia.
Qed.

Ltac differs_from_rejection :=
  unfold keyRejection; world_simpl;
  let Heq := fresh in
  intros Heq; apply (f_equal (λ r, calls (snd r))) in Heq; cbn in Heq;
  rewrite <- ?app_assoc in Heq; by apply app_cons_neq in Heq.

(** C4: [write] and [read] end in the rejection of the blob key, before
    any call to the SDK, exactly when the blob key is empty. *)
Theorem C4_empty_key_rejected_before_any_call `{GoRuntime} fl w :
  (writeCmd fl w = keyRejection w ↔ blobKey fl = "") ∧
  (readCmd fl w = keyRejection w ↔ blobKey fl = "") ∧
  calls (snd (keyRejection w)) = calls w ∧
  faults (snd (keyRejection w)) = faults w ∧
  containers (snd (keyRejection w)) = containers w.
Proof.
  split_and!; [| | done | done | done].
  - split.
    + intros Hrun. destruct (decide (blobKey fl = "")) as [| Hk]; [done |].
      exfalso. revert Hrun. unfold writeCmd.
      rewrite (decide_False (P := blobKey fl = "")) by done.
      destruct (decide (blobValue fl = "")) as [Hv | Hv].
      * run_cmd. unfold keyRejection. world_simpl.
        intros [= Hmsg%app_inj_1]; [| done]. destruct Hmsg as [_ Hmsg].
        vm_compute in Hmsg. discriminate.
      * run_cmd. destruct (decide (containerName fl = "")) as [Hc | Hc].
        all: world_simpl; split_faults.
        all: differs_from_rejection.
    + intros Hk. unfold writeCmd. rewrite Hk. reflexivity.
  - split.
    + intros Hrun. destruct (decide (blobKey fl = "")) as [| Hk]; [done |].
      exfalso. revert Hrun. unfold readCmd.
      rewrite (decide_False (P := blobKey fl = "")) by done.
      run_cmd. destruct (decide (containerName fl = "")) as [Hc | Hc].
      all: world_simpl; split_faults.
      all: differs_from_rejection.
    + intros Hk. unfold readCmd. rewrite Hk. reflexivity.
Qed.

(** ** Writing a blob *)

Lemma app_nl_neq (v : string) : v +:+ nl ≠ v.
Proof.
  intros Hv. apply (f_equal String.length) in Hv.
  rewrite length_app_s in Hv. cbn in Hv. lia.
Qed.

(** C10: after every [write] that succeeds, the blob stored under the key
    holds the value followed by a line feed, which [Fprintln] appended, so
    never the value itself, while the confirmation line quotes the value
    as it was given. *)
Theorem C10_written_content_has_trailing_newline `{GoRuntime} fl w w' :
  writeCmd fl w = (Done tt, w') →
  (∃ bl, (containers w' !! containerName fl) ≫= (.!! blobKey fl) = Some bl ∧
         content bl = blobValue fl +:+ nl ∧
         content bl ≠ blobValue fl) ∧
  stdout w' = stdout w ++ ["Successfully written " +:+ quote (blobValue fl)
                           +:+ " to " +:+ quote (blobKey fl) +:+ nl].
Proof.
  unfold writeCmd.
  destruct (decide (blobKey fl = "")); [by run_cmd |].
  destruct (decide (blobValue fl = "")); [by run_cmd |].
  run_cmd. destruct (decide (containerName fl = "")); [by world_simpl |].
  world_simpl. split_faults; try discriminate.
  all: intros [= <-]; world_simpl; rewrite !app_nil_l_s.
  all: (split; [| done]); eexists.
  all: rewrite lookup_insert_eq; cbn [mbind option_bind].
  all: rewrite lookup_insert_eq; cbn [content].
  all: split_and!; [reflexivity | reflexivity | apply app_nl_neq].
Qed.

Lemma C10_written_content_has_trailing_newline_witness :
  (∃ bl, (containers (snd (@writeCmd testRuntime sampleFlags sampleWorld))
            !! containerName sampleFlags) ≫= (.!! blobKey sampleFlags) = Some bl ∧
         content bl = blobValue sampleFlags +:+ nl ∧
         content bl ≠ blobValue sampleFlags) ∧
  stdout (snd (@writeCmd testRuntime sampleFlags sampleWorld)) =
  stdout sampleWorld ++ ["Successfully written " +:+ @quote testRuntime (blobValue sampleFlags)
                         +:+ " to " +:+ @quote testRuntime (blobKey sampleFlags) +:+ nl].
Proof.
  apply (@C10_written_content_has_trailing_newline testRuntime sampleFlags
           sampleWorld).
  vm_compute. reflexivity.
Defined.

(** The stored bytes and the confirmation of the example, evaluated. *)
Example write_hello :
  let w' := snd (@writeCmd testRuntime sampleFlags sampleWorld) in
  content <$> ((containers w' !! "c") ≫= (.!! "k")) = Some ("hello" +:+ nl) ∧
  stdout w' = ["Successfully written " +:+ dq +:+ "hello" +:+ dq +:+ " to "
               +:+ dq +:+ "k" +:+ dq +:+ nl].
Proof. vm_compute. split; reflexivity. Qed.

(** ** No retry *)




(** ** A listing that fails on the way *)




Section ListFault.
Context `{GoRuntime}.


End ListFault.



(** ** The error discipline *)



Lemma keepStore_trans w1 w2 w3 :
  keepStore w1 w2 → keepStore w2 w3 → keepStore w1 w3.
Proof. unfold keepStore. congruence. Qed.



Lemma logFatal_orderly keep {A} e w : orderly keep w (@logFatal A e w).
Proof. cbn. eauto. Qed.





Section Discipline.
Context `{GoRuntime}.








End Discipline.




(** What [main] does with an error that [Execute] does return, cobra's
    own: it drops it, and the process ends with status 0. *)
Example main_drops_usage_error :
  @Execute testRuntime 1 (UsageError "unknown command") sampleWorld
  = (Done (Some (ArgError "unknown command")),
     addStderr ("Error: unknown command" +:+ nl) sampleWorld) ∧
  exitStatus (fst (@main testRuntime 1 (UsageError "unknown command") sampleWorld))
  = Some 0.
Proof. split; reflexivity. Qed.

(** * Further properties of the commands *)

(** ** Every run of [write] and of [read] *)

(** Bring the trace of a run to the form [calls w ++ cs]. *)
Ltac trace_form := world_simpl; rewrite <- ?app_assoc; cbn [app].

Section WriteRead.
Context `{GoRuntime}.

(** The two ways a run of [write] ends. *)
Lemma writeCmd_cases fl w :
  (∃ w' m, writeCmd fl w = (Done tt, w') ∧
         containers w !! containerName fl = Some m ∧
         containers w' = <[containerName fl := <[blobKey fl := writtenBlob fl]> m]>
                           (containers w) ∧
         stdout w' = stdout w ++ [writtenLine fl] ∧
         stderr w' = stderr w ∧
         calls w' = calls w ++ writeTrace fl) ∨
  (∃ w' e (n : nat), writeCmd fl w = (Exited 1, w') ∧
         containers w' = containers w ∧
         stdout w' = stdout w ∧
         stderr w' = stderr w ++ [errorString e +:+ nl] ∧
         calls w' = calls w ++ take n (writeTrace fl) ∧ (n ≤ 4)%nat).
Proof.
  unfold writeCmd.
  destruct (decide (blobKey fl = "")).
  { right. run_cmd. eexists _, _, 0%nat. split_and!; try reflexivity.
    - cbn. by rewrite app_nil_r.
    - lia. }
  destruct (decide (blobValue fl = "")).
  { right. run_cmd. eexists _, _, 0%nat. split_and!; try reflexivity.
    - cbn. by rewrite app_nil_r.
    - lia. }
  run_cmd. destruct (decide (containerName fl = "")).
  { right. world_simpl. eexists _, _, 1%nat. split_and!; try reflexivity. lia. }
  world_simpl. rewrite ?app_nil_l_s. split_faults.
  all: first
    [ left; eexists _, _; split; [reflexivity |]; trace_form;
      rewrite ?app_nil_l_s; split_and!; reflexivity
    | right; eexists _, _, 2%nat; split; [reflexivity |]; trace_form;
      split_and!; [done | done | reflexivity | reflexivity | lia]
    | right; eexists _, _, 3%nat; split; [reflexivity |]; trace_form;
      split_and!; [done | done | reflexivity | reflexivity | lia]
    | right; eexists _, _, 4%nat; split; [reflexivity |]; trace_form;
      split_and!; [done | done | reflexivity | reflexivity | lia] ].
Qed.

(** [write] is all or nothing.  Every run, whatever the flags, the service
    and the transport, either returns, having stored the blob, printed the
    confirmation and made the five calls of [writeTrace], the last one
    closing the bucket; or ends the process with status 1, one error
    logged, nothing printed, the service as it was, after some first calls
    of [writeTrace] that never include the closing of the bucket. *)
Theorem write_all_or_nothing fl w :
  (∃ w', writeCmd fl w = (Done tt, w') ∧
         blobAt w' (containerName fl) (blobKey fl) = Some (writtenBlob fl) ∧
         stdout w' = stdout w ++ [writtenLine fl] ∧
         stderr w' = stderr w ∧
         calls w' = calls w ++ writeTrace fl) ∨
  (∃ w' e (n : nat), writeCmd fl w = (Exited 1, w') ∧
         containers w' = containers w ∧
         stdout w' = stdout w ∧
         stderr w' = stderr w ++ [errorString e +:+ nl] ∧
         calls w' = calls w ++ take n (writeTrace fl) ∧ (n ≤ 4)%nat).
Proof.
  destruct (writeCmd_cases fl w)
    as [(w' & m & Hrun & Hm & Hc & Hout & Herr & Hcalls) | Hfail];
    [left | by right].
  exists w'. split_and!; try done.
  unfold blobAt. rewrite Hc, lookup_insert_eq. cbn. by rewrite lookup_insert_eq.
Qed.

(** [write] touches one blob.  In every run, the containers that exist
    before and after are the same, and every blob other than the one under
    the key, in this or another container, is as it was. *)
Theorem write_changes_one_blob fl w c k :
  c ≠ containerName fl ∨ k ≠ blobKey fl →
  dom (containers (snd (writeCmd fl w))) = dom (containers w) ∧
  blobAt (snd (writeCmd fl w)) c k = blobAt w c k.
Proof.
  intros Hck.
  destruct (writeCmd_cases fl w)
    as [(w' & m & -> & Hm & Hc & _) | (w' & e & n & -> & Hc & _)];
    cbn [snd]; unfold blobAt; rewrite Hc; [| done].
  split.
  - rewrite dom_insert_L. apply (elem_of_dom_2 (D := gset string)) in Hm.
    by apply subseteq_union_1_L, singleton_subseteq_l.
  - destruct (decide (c = containerName fl)) as [-> | Hc'].
    + rewrite lookup_insert_eq, Hm. cbn.
      destruct Hck as [? | Hk]; [done |]. by rewrite lookup_insert_ne.
    + by rewrite lookup_insert_ne.
Qed.

(** [write] never creates a container: into a container that does not
    exist, every run ends the process with status 1 and leaves the service
    as it was. *)
Theorem write_into_absent_container_fails fl w :
  containers w !! containerName fl = None →
  ∃ w' e, writeCmd fl w = (Exited 1, w') ∧
          containers w' = containers w ∧
          stdout w' = stdout w ∧
          stderr w' = stderr w ++ [errorString e +:+ nl].
Proof.
  intros Hnone.
  destruct (writeCmd_cases fl w)
    as [(w' & m & _ & Hm & _) | (w' & e & n & Hrun & Hc & Hout & Herr & _)];
    [congruence |].
  by exists w', e.
Qed.

End WriteRead.

Section WriteRead2.
Context `{GoRuntime}.

(** [write] rejects an empty value after the key: it ends in the rejection
    of the blob value, before any call to the SDK, exactly when the key is
    set and the value is empty; when both are empty the key is the one
    reported. *)
Theorem write_value_rejected_after_key fl w :
  (writeCmd fl w = valueRejection w ↔ blobKey fl ≠ "" ∧ blobValue fl = "") ∧
  (blobKey fl = "" → blobValue fl = "" → writeCmd fl w = keyRejection w) ∧
  calls (snd (valueRejection w)) = calls w ∧
  containers (snd (valueRejection w)) = containers w.
Proof.
  split_and!; [| | done | done].
  - split.
    + unfold writeCmd.
      destruct (decide (blobKey fl = "")) as [Hk | Hk].
      { run_cmd. unfold valueRejection. world_simpl.
        intros [= Hmsg%app_inj_1]; [| done]. destruct Hmsg as [_ Hmsg].
        vm_compute in Hmsg. discriminate. }
      destruct (decide (blobValue fl = "")) as [Hv | Hv]; [done |].
      run_cmd. destruct (decide (containerName fl = "")).
      all: world_simpl; split_faults.
      all: unfold valueRejection; world_simpl; intros Heq;
        apply (f_equal (λ r, calls (snd r))) in Heq; cbn in Heq;
        rewrite <- ?app_assoc in Heq; by apply app_cons_neq in Heq.
    + intros [Hk Hv]. unfold writeCmd.
      rewrite (decide_False (P := blobKey fl = "")) by done.
      rewrite Hv. reflexivity.
  - intros Hk _. unfold writeCmd. rewrite Hk. reflexivity.
Qed.


(** The run of [read] when the blob is missing. *)
Lemma readCmd_missing fl w :
  blobKey fl ≠ "" →
  containerName fl ≠ "" →
  blobAt w (containerName fl) (blobKey fl) = None →
  ∃ w' e, readCmd fl w = (Exited 1, w') ∧
          stdout w' = stdout w ∧
          containers w' = containers w ∧
          stderr w' = stderr w ++ [errorString e +:+ nl] ∧
          calls w' = calls w ++ [CallOpenBucket (containerName fl);
                                 CallNewReader (blobKey fl)] ∧
          (e = StoreError NotFound ∨ ∃ k fs, faults w = Some k :: fs).
Proof.
  intros Hk Hc Hnone. unfold readCmd, blobAt in *.
  rewrite (decide_False (P := blobKey fl = "")) by done.
  run_cmd. rewrite (decide_False (P := containerName fl = "")) by done.
  world_simpl.
  destruct (faults w) as [|[k|] fs]; world_simpl.
  all: try match goal with
           | |- context [match ?x with Some _ => _ | None => _ end] =>
               change x with (containers w !! containerName fl
                              ≫= (.!! blobKey fl));
               rewrite Hnone
           end.
  all: eexists _, _; split; [reflexivity |]; trace_form.
  all: split_and!; try reflexivity; eauto.
Qed.

(** [read] of a blob that does not exist, in a container that exists or
    not: every run ends the process with status 1 at [NewReader], having
    printed nothing and made two calls; the error is the service's
    [NotFound] unless the transport failed first. *)
Theorem read_missing_blob_fails fl w :
  blobKey fl ≠ "" →
  containerName fl ≠ "" →
  blobAt w (containerName fl) (blobKey fl) = None →
  ∃ w' e, readCmd fl w = (Exited 1, w') ∧
          stdout w' = stdout w ∧
          containers w' = containers w ∧
          stderr w' = stderr w ++ [errorString e +:+ nl] ∧
          calls w' = calls w ++ [CallOpenBucket (containerName fl);
                                 CallNewReader (blobKey fl)] ∧
          (e = StoreError NotFound ∨ ∃ k fs, faults w = Some k :: fs).
Proof. apply readCmd_missing. Qed.





End WriteRead2.

(** ** The container commands *)

Section Containers2.
Context `{GoRuntime}.


(** On a transport that does not fail and with a URL that parses,
    [create-container] returns exactly when the container was absent, and
    [delete-container] exactly when it was present; otherwise they end
    the process with status 1. *)
Theorem create_needs_absent_delete_needs_present fl w :
  faults w = [] →
  urlValid (containerURLOf fl) = true →
  (fst (createContainerCmd fl w) = Done tt
   ↔ containers w !! containerName fl = None) ∧
  (fst (createContainerCmd fl w) = Exited 1
   ↔ is_Some (containers w !! containerName fl)) ∧
  (fst (deleteContainerCmd fl w) = Done tt
   ↔ is_Some (containers w !! containerName fl)) ∧
  (fst (deleteContainerCmd fl w) = Exited 1
   ↔ containers w !! containerName fl = None).
Proof.
  intros Hf Hu.
  destruct (containers w !! containerName fl) as [m|] eqn:Hm.
  - rewrite (createContainerCmd_present fl w m), (deleteContainerCmd_present fl w m)
      by done.
    cbn. split_and!; (split; [try done; eauto | try done; eauto]).
  - rewrite (createContainerCmd_absent fl w), (deleteContainerCmd_absent fl w)
      by done.
    cbn. split_and!; (split; [try done | try done]); by intros [? ?].
Qed.

(** [delete-container] discards the blobs: on a transport that does not
    fail, deleting a container, whatever it holds, and creating it again
    gives an empty container, and a [read] of any key then ends the process
    with status 1 on the service's [NotFound]. *)
Theorem delete_then_create_is_empty fl w m :
  faults w = [] →
  urlValid (containerURLOf fl) = true →
  blobKey fl ≠ "" →
  containerName fl ≠ "" →
  containers w !! containerName fl = Some m →
  ∃ w1 w2 w3,
    deleteContainerCmd fl w = (Done tt, w1) ∧
    createContainerCmd fl w1 = (Done tt, w2) ∧
    containers w2 = <[containerName fl := ∅]> (containers w) ∧
    readCmd fl w2 = (Exited 1, w3) ∧
    stderr w3 = stderr w ++ [errorString (StoreError NotFound) +:+ nl].
Proof.
  intros Hf Hu Hk Hc Hm.
  pose proof (deleteContainerCmd_present fl w m Hf Hu Hm) as H1.
  set (w1 := World _ _ _ _ _) in H1.
  pose proof (createContainerCmd_absent fl w1 eq_refl Hu) as H2.
  set (w2 := World _ _ _ _ _) in H2.
  assert (Hc2 : containers w2 = <[containerName fl := ∅]> (containers w)).
  { cbn. by rewrite insert_delete_eq. }
  destruct (readCmd_missing fl w2 Hk Hc) as (w3 & e & H3 & _ & _ & Herr & _ & He).
  { unfold blobAt. rewrite Hc2, lookup_insert_eq. cbn. apply lookup_empty. }
  exists w1, w2, w3. split_and!; try done.
  - apply H2. cbn. apply lookup_delete_eq.
  - destruct He as [-> | (k & fs & Hfs)]; [done | discriminate].
Qed.


(** A credential that [init] cannot build ends every invocation: the
    error is logged, the process exits with status 1, and no command
    runs. *)
Theorem init_failure_ends_every_invocation fuel inv w e :
  newCredential accountName accountKey = Some e →
  main fuel inv w = (Exited 1, addStderr (errorString e +:+ nl) w).
Proof. intros Hcred. unfold main, init. by rewrite Hcred. Qed.

End Containers2.

(** ** Every run of [list] *)

(** What the closure keeps, whatever the transport and the fuel: any
    relation between worlds that holds across its elementary steps. *)
Section ListInvariant.
Variable R : world → world → Prop.
Hypothesis R_refl : ∀ w, R w w.
Hypothesis R_trans : ∀ w1 w2 w3, R w1 w2 → R w2 w3 → R w1 w3.
Hypothesis R_next : ∀ w p, R w (addCall (CallNext p) w).
Hypothesis R_faults : ∀ w fs, R w (setFaults fs w).
Hypothesis R_stdout : ∀ w s, R w (addStdout s w).
Hypothesis R_stderr : ∀ w s, R w (addStderr s w).

Lemma bind_keeps {A B} (c : Cmd A) (k : A → Cmd B) w :
  R w (snd (c w)) → (∀ a w1, R w1 (snd (k a w1))) → R w (snd (bind c k w)).
Proof.
  intros Hc Hk. unfold bind. destruct (c w) as [[a|n| |] w1]; cbn in *; eauto.
Qed.

Lemma iterNext_keeps it w : R w (snd (SDK.iterNext it w)).
Proof.
  unfold SDK.iterNext. apply bind_keeps.
  - unfold SDK.transport. cbn. destruct (faults w); cbn; [apply R_next |].
    eapply R_trans; [apply R_next | apply R_faults].
  - intros [e|] w1; [apply R_refl |].
    destruct (itMissing it); [apply R_refl |].
    destruct (itPending it); apply R_refl.
Qed.

Lemma logFatal_keeps {A} e w : R w (snd (@logFatal A e w)).
Proof. cbn. apply R_stderr. Qed.

Lemma listLoop_keeps recur indent prefix missing pending :
  (∀ p i w1, R w1 (snd (recur p i w1))) →
  ∀ w, R w (snd (listLoop recur indent prefix missing pending w)).
Proof.
  intros Hrec. induction pending as [|e rest IH]; intros w; cbn [listLoop].
  all: apply bind_keeps; [apply iterNext_keeps |].
  all: intros [obj| |err] w1; [| apply R_refl | apply logFatal_keeps].
  all: apply bind_keeps; [apply R_stdout |]; intros _ w2.
  all: apply bind_keeps;
    [destruct (IsDir obj); [apply Hrec | apply R_refl] |]; intros _ w3.
  - apply R_refl.
  - apply IH.
Qed.

Lemma list'_keeps d fuel b p indent w :
  R w (snd (list' d fuel b p indent w)).
Proof.
  revert p indent w. induction fuel as [|n IH]; intros p indent w.
  - apply R_refl.
  - cbn [list']. apply bind_keeps; [apply R_refl |].
    intros it w1. by apply listLoop_keeps.
Qed.

End ListInvariant.

Lemma nextOnly_trans w1 w2 w3 : nextOnly w1 w2 → nextOnly w2 w3 → nextOnly w1 w3.
Proof.
  intros (cs1 & H1 & F1) (cs2 & H2 & F2). exists (cs1 ++ cs2).
  split; [by rewrite H2, H1, app_assoc | by apply Forall_app].
Qed.

Lemma nextOnly_refl w : nextOnly w w.
Proof. exists []. by rewrite app_nil_r. Qed.

Section ListRuns.
Context `{GoRuntime}.

(** [listCmd] in terms of the run of its closure. *)
Lemma listCmd_unfold fuel fl w :
  containerName fl ≠ "" →
  listCmd fuel fl w =
  match list' "/" fuel (listedBucket fl) "" ""
              (addCall (CallOpenBucket (containerName fl)) w) with
  | (Done _, w1) =>
      (Done tt,
       addCall CallBucketClose
         (addCall CallBucketClose (addStdout (listedLine fl) w1)))
  | (Exited n, w1) => (Exited n, w1)
  | (Panicked, w1) => (Panicked, w1)
  | (Diverged, w1) => (Diverged, w1)
  end.
Proof.
  intros Hc. unfold listCmd. unfold bind at 1, SDK.openBucket, bind at 1, modify.
  rewrite decide_False by done. cbn [ret].
  change (SDK.prefixedBucket _ _) with (listedBucket fl).
  unfold bind at 1.
  by destruct (list' "/" fuel (listedBucket fl) "" "" _) as [[[]|n| |] w1].
Qed.

Lemma listCmd_unnamed fuel fl w :
  containerName fl = "" →
  listCmd fuel fl w =
  (Exited 1,
   addStderr (errorString (ArgError
                "azureblob.OpenBucket: containerName is required") +:+ nl)
             (addCall (CallOpenBucket (containerName fl)) w)).
Proof.
  intros Hc. unfold listCmd. unfold bind at 1, SDK.openBucket, bind at 1, modify.
  by rewrite decide_True by done.
Qed.

(** [list] only reads, and reads only through the iterators: in every
    run, whatever the flags, the service, the transport and the fuel, the
    service is left as it was, and the calls made are the opening of the
    bucket, fetches of listing iterators and, exactly when the command
    returns, the two closings of the bucket. *)
Theorem list_only_fetches fuel fl w :
  containers (snd (listCmd fuel fl w)) = containers w ∧
  ∃ cs, Forall isNext cs ∧
        calls (snd (listCmd fuel fl w)) =
        calls w ++ CallOpenBucket (containerName fl) :: cs
                ++ match fst (listCmd fuel fl w) with
                   | Done _ => [CallBucketClose; CallBucketClose]
                   | _ => []
                   end.
Proof.
  destruct (decide (containerName fl = "")) as [Hc | Hc].
  { rewrite listCmd_unnamed by done. cbn. split; [done |]. by exists []. }
  rewrite listCmd_unfold by done.
  set (b := listedBucket fl). set (w0 := addCall _ w).
  pose proof (list'_keeps keepStore (λ _, eq_refl) keepStore_trans
                (λ _ _, eq_refl) (λ _ _, eq_refl) (λ _ _, eq_refl)
                (λ _ _, eq_refl) "/" fuel b "" "" w0) as Hstore.
  destruct (list'_keeps nextOnly nextOnly_refl nextOnly_trans) with
    (d := "/"%char) (fuel := fuel) (b := b) (p := "") (indent := "") (w := w0)
    as (cs & Hcalls & Hnext).
  { intros w1 p. exists [CallNext p]. split; [done |]. repeat constructor.
    by exists p. }
  all: try (intros w1 x; exists []; cbn; by rewrite app_nil_r).
  unfold keepStore in Hstore.
  destruct (list' "/" fuel b "" "" w0) as [[[]|n| |] w1]; cbn in *.
  all: split; [done |]; exists cs; split; [done |].
  all: rewrite Hcalls, <- ?app_assoc; cbn; by rewrite ?app_nil_r.
Qed.

End ListRuns.

(** ** A listing interrupted anywhere *)

Lemma partialListing_bind full1 full2 (c k : Cmd unit) w :
  partialListing full1 w (c w) →
  (∀ w1, containers w1 = containers w → stdout w1 = stdout w ++ full1 →
         partialListing full2 w1 (k w1)) →
  partialListing (full1 ++ full2) w (bind c (λ _, k) w).
Proof.
  intros Hc Hk. unfold bind, partialListing in *.
  destruct (c w) as [[[]|n| |] w1]; cbn in *; destruct Hc as [Hs Hc]; try done.
  - specialize (Hk w1 Hs Hc).
    destruct (k w1) as [[[]|n| |] w2]; cbn in *; destruct Hk as [Hs2 Hk];
      try done.
    + split; [congruence |]. by rewrite Hk, Hc, app_assoc.
    + split; [congruence |]. destruct Hk as (-> & l & Hl & Hpre).
      split; [done |]. exists (full1 ++ l).
      split; [by rewrite Hl, Hc, app_assoc | by apply prefix_app].
  - split; [done |]. destruct Hc as (-> & l & Hl & Hpre).
    split; [done |]. exists l. split; [done | by apply prefix_app_r].
Qed.

Lemma partialListing_ret w : partialListing [] w (ret tt w).
Proof. split; [done |]. cbn. by rewrite app_nil_r. Qed.

Lemma partialListing_printf s w : partialListing [s] w (printf s w).
Proof. by split. Qed.

(** What [iter.Next] hands back, and what it leaves alone. *)
Lemma iterNext_leaves it w :
  ∃ r w1, SDK.iterNext it w = (Done r, w1) ∧
          stdout w1 = stdout w ∧ containers w1 = containers w ∧
          ((∃ e, r = NextErr e) ∨
           r = match itPending it with
               | [] => NextEOF
               | obj :: _ => NextObj obj
               end).
Proof.
  unfold SDK.iterNext. run_cmd.
  destruct (faults w) as [|[k|] fs]; world_simpl.
  all: destruct (itMissing it); try destruct (itPending it);
    eexists _, _; (split; [reflexivity |]);
    (split_and!; [done | done | first [by left; eexists | by right]]).
Qed.

(** The loop, whatever the transport does: it prints the lines of its
    entries in order, and stops short only by ending the process. *)
Lemma listLoop_partial recur indent prefix missing (out : ListObject → list string)
    pending w :
  (∀ e w1, e ∈ pending → IsDir e = true → containers w1 = containers w →
           partialListing (out e) w1 (recur (Key e) (indent +:+ "  ") w1)) →
  partialListing
    (flat_map (λ e, (indent +:+ Key e +:+ nl)
                    :: (if IsDir e then out e else [])) pending)
    w (listLoop recur indent prefix missing pending w).
Proof.
  revert w. induction pending as [|e rest IH]; intros w Hrec.
  all: cbn [listLoop flat_map].
  all: match goal with
       | |- context [SDK.iterNext ?it] =>
           destruct (iterNext_leaves it w)
             as (r & w1 & Hnext & Hout & Hstore & Hr); cbn [itPending] in Hr
       end.
  all: rewrite (bind_done _ _ _ _ _ Hnext).
  all: destruct Hr as [[err ->] | ->].
  all: try (split; [done |]; cbn; split; [done |]; exists [];
            split; [by rewrite app_nil_r | apply prefix_nil]).
  - split; [done |]. cbn. by rewrite app_nil_r.
  - assert (Hgo : partialListing
              (([indent +:+ Key e +:+ nl] ++ (if IsDir e then out e else []))
               ++ flat_map (λ e, (indent +:+ Key e +:+ nl)
                                 :: (if IsDir e then out e else [])) rest)
              w1
              ((printf (indent +:+ Key e +:+ nl) ;;
                (if IsDir e then recur (Key e) (indent +:+ "  ") else ret tt) ;;
                listLoop recur indent prefix missing rest) w1)).
    { rewrite <- app_assoc. apply partialListing_bind;
        [apply partialListing_printf |].
      intros w2 Hs2 Ho2. apply partialListing_bind.
      - destruct (IsDir e) eqn:Hd; [| apply partialListing_ret].
        apply Hrec; [left | done | congruence].
      - intros w3 Hs3 Ho3. apply IH. intros e' w4 He' Hd' Hs4.
        apply Hrec; [by right | done | congruence]. }
    unfold partialListing in *.
    match goal with
    | |- context [fst ?r] => destruct r as [[[]|n| |] w']
    end; cbn in *; destruct Hgo as [Hs Hgo]; try done.
    + split; [congruence |]. by rewrite Hgo, Hout.
    + split; [congruence |]. destruct Hgo as (-> & l & Hl & Hpre).
      split; [done |]. exists l. by rewrite Hl, Hout.
Qed.

(** The closure, whatever the transport does, with fuel for the longest
    key: it prints the tree below [p], or some first lines of it before
    ending the process. *)
Lemma list'_partial d b keys n p depth w :
  SDK.bucketKeys b w = Some keys →
  (maxLen keys ≤ n + String.length p)%nat →
  partialListing (flat_map (render depth) (buildTree (S n) keys p d)) w
                 (list' d (S n) b p (indentOf depth) w).
Proof.
  revert p depth w. induction n as [|n IH]; intros p depth w Hk Hn.
  all: rewrite list'_S; unfold bind at 1, SDK.bucketList, bind at 1, gets;
    rewrite Hk; cbn [ret itPrefix itMissing itPending Delimiter Prefix].
  all: rewrite buildTree_S, flat_map_map.
  - erewrite flat_map_ext_elem; [apply (listLoop_partial _ _ _ _ (λ _, [])) |].
    + intros e w1 He Hd _. pose proof (dir_entry_length d keys p e He Hd). lia.
    + intros e He. unfold nodeOf. destruct (IsDir e) eqn:Hd; [| done].
      pose proof (dir_entry_length d keys p e He Hd). lia.
  - erewrite flat_map_ext_elem;
      [apply (listLoop_partial _ _ _ _
                (λ e, flat_map (render (S depth))
                               (buildTree (S n) keys (Key e) d))) |].
    + intros e w1 He Hd Hs. pose proof (dir_entry_length d keys p e He Hd).
      apply (IH (Key e) (S depth) w1); [| lia].
      unfold SDK.bucketKeys in *. by rewrite Hs.
    + intros e He. unfold nodeOf. by destruct (IsDir e).
Qed.

Section ListRuns2.
Context `{GoRuntime}.

(** A listing cut short prints a beginning of the whole listing.  For a
    container that exists and fuel for its longest key, whatever the
    transport does: [list] either returns, having printed every line of
    the tree of the listed keys and then the closing line; or it ends the
    process with status 1, having printed some first lines of that tree,
    in the same order, and no closing line. *)
Theorem list_prints_a_prefix_of_the_listing fuel fl w (m : gmap string blob) :
  containerName fl ≠ "" →
  containers w !! containerName fl = Some m →
  (maxLen (listedKeys fl m) < fuel)%nat →
  (∃ w', listCmd fuel fl w = (Done tt, w') ∧
         stdout w' = stdout w
                     ++ flat_map (render 0) (buildListing (listedKeys fl m) "" "/")
                     ++ [listedLine fl]) ∨
  (∃ w' l, listCmd fuel fl w = (Exited 1, w') ∧
           stdout w' = stdout w ++ l ∧
           l `prefix_of` flat_map (render 0)
                           (buildListing (listedKeys fl m) "" "/")).
Proof.
  intros Hc Hm Hfuel. destruct fuel as [|n]; [lia |].
  rewrite listCmd_unfold by done.
  set (w0 := addCall _ w).
  pose proof (list'_partial "/" (listedBucket fl) (listedKeys fl m) n "" 0 w0)
    as Hrun.
  unfold partialListing in Hrun. change (indentOf 0) with "" in Hrun.
  unfold buildListing.
  rewrite (buildTree_fuel "/" _ (S (maxLen (listedKeys fl m))) (S n) "")
    by (cbn; lia).
  destruct (list' "/" (S n) (listedBucket fl) "" "" w0) as [[[]|k| |] w1];
    cbn in Hrun; destruct Hrun as [_ Hrun];
    try (by apply listedKeys_bucketKeys); try (cbn; lia); try done.
  - left. eexists. split; [reflexivity |]. cbn. by rewrite Hrun, <- app_assoc.
  - right. destruct Hrun as (-> & l & Hl & Hpre). by exists w1, l.
Qed.

(** [list] of a container that does not exist: every run with fuel ends
    the process with status 1 at the first fetch, having printed
    nothing. *)
Theorem list_absent_container_fails fuel fl w :
  containerName fl ≠ "" →
  containers w !! containerName fl = None →
  (0 < fuel)%nat →
  ∃ w' e, listCmd fuel fl w = (Exited 1, w') ∧
          stdout w' = stdout w ∧
          containers w' = containers w ∧
          stderr w' = stderr w ++ [errorString e +:+ nl] ∧
          calls w' = calls w ++ [CallOpenBucket (containerName fl); CallNext ""] ∧
          (e = StoreError NotFound ∨ ∃ k fs, faults w = Some k :: fs).
Proof.
  intros Hc Hnone Hfuel. destruct fuel as [|n]; [lia |].
  rewrite listCmd_unfold by done. rewrite list'_S.
  unfold bind at 1, SDK.bucketList, bind at 1, gets, SDK.bucketKeys.
  cbn [listedBucket SDK.prefixedBucket bucketContainer addCall containers].
  rewrite Hnone. cbn [ret itPrefix itMissing itPending Prefix listLoop].
  unfold SDK.iterNext. run_cmd.
  destruct (faults w) as [|[k|] fs]; world_simpl.
  all: eexists _, _; split; [reflexivity |]; trace_form.
  all: split_and!; try reflexivity; eauto.
Qed.

(** A prefix that no key starts with is not an error: on a transport
    that does not fail, [list] of an existing container in which no key
    starts with the prefix, an empty container among them, returns having
    printed the closing line alone. *)
Theorem list_nothing_under_prefix fuel fl w (m : gmap string blob) :
  faults w = [] →
  containerName fl ≠ "" →
  containers w !! containerName fl = Some m →
  (∀ k, k ∈ dom m → stripPrefix (blobPrefix fl) k = None) →
  (0 < fuel)%nat →
  ∃ w', listCmd fuel fl w = (Done tt, w') ∧
        stdout w' = stdout w ++ [listedLine fl] ∧
        stderr w' = stderr w.
Proof.
  intros Hf Hc Hm Hnone Hfuel.
  assert (Hkeys : listedKeys fl m = []).
  { unfold listedKeys.
    assert (Hall : ∀ k, k ∈ merge_sort String.le (elements (dom m)) →
                        stripPrefix (blobPrefix fl) k = None).
    { intros k Hk. apply Hnone. apply elem_of_elements.
      by rewrite <- (merge_sort_Permutation String.le). }
    induction (merge_sort String.le (elements (dom m))) as [|k l IH]; [done |].
    cbn. rewrite (Hall k) by left. apply IH. intros k' Hk'. apply Hall.
    by right. }
  destruct (listCmd_run fuel fl w m Hf Hc Hm) as [cs Hrun].
  { rewrite Hkeys. cbn. lia. }
  rewrite Hrun, Hkeys. eexists. split; [reflexivity |]. done.
Qed.


End ListRuns2.

(** ** The further properties at work *)

Lemma write_changes_one_blob_witness :
  dom (containers (snd (@writeCmd testRuntime sampleFlags sampleWorld)))
    = dom (containers sampleWorld) ∧
  blobAt (snd (@writeCmd testRuntime sampleFlags sampleWorld)) "c" "x"
    = blobAt sampleWorld "c" "x".
Proof.
  apply (@write_changes_one_blob testRuntime sampleFlags sampleWorld "c" "x").
  right. discriminate.
Defined.

Lemma write_into_absent_container_fails_witness :
  ∃ w' e, @writeCmd testRuntime sampleFlags (quiet ∅) = (Exited 1, w') ∧
          containers w' = containers (quiet ∅) ∧
          stdout w' = stdout (quiet ∅) ∧
          stderr w' = stderr (quiet ∅) ++ [errorString e +:+ nl].
Proof.
  apply (@write_into_absent_container_fails testRuntime sampleFlags (quiet ∅)).
  reflexivity.
Defined.

Lemma read_missing_blob_fails_witness :
  ∃ w' e, @readCmd testRuntime sampleFlags sampleWorld = (Exited 1, w') ∧
          stdout w' = stdout sampleWorld ∧
          containers w' = containers sampleWorld ∧
          stderr w' = stderr sampleWorld ++ [errorString e +:+ nl] ∧
          calls w' = calls sampleWorld
                     ++ [CallOpenBucket (containerName sampleFlags);
                         CallNewReader (blobKey sampleFlags)] ∧
          (e = StoreError NotFound ∨ ∃ k fs, faults sampleWorld = Some k :: fs).
Proof.
  apply (@read_missing_blob_fails testRuntime sampleFlags sampleWorld);
    [discriminate | discriminate | reflexivity].
Defined.




Lemma create_needs_absent_delete_needs_present_witness :
  (fst (@createContainerCmd testRuntime sampleFlags sampleWorld) = Done tt
   ↔ containers sampleWorld !! containerName sampleFlags = None) ∧
  (fst (@createContainerCmd testRuntime sampleFlags sampleWorld) = Exited 1
   ↔ is_Some (containers sampleWorld !! containerName sampleFlags)) ∧
  (fst (@deleteContainerCmd testRuntime sampleFlags sampleWorld) = Done tt
   ↔ is_Some (containers sampleWorld !! containerName sampleFlags)) ∧
  (fst (@deleteContainerCmd testRuntime sampleFlags sampleWorld) = Exited 1
   ↔ containers sampleWorld !! containerName sampleFlags = None).
Proof.
  apply (@create_needs_absent_delete_needs_present testRuntime sampleFlags
           sampleWorld); reflexivity.
Defined.

Lemma delete_then_create_is_empty_witness :
  ∃ w1 w2 w3,
    @deleteContainerCmd testRuntime sampleFlags sampleWorld = (Done tt, w1) ∧
    @createContainerCmd testRuntime sampleFlags w1 = (Done tt, w2) ∧
    containers w2 = <[containerName sampleFlags := ∅]> (containers sampleWorld) ∧
    @readCmd testRuntime sampleFlags w2 = (Exited 1, w3) ∧
    stderr w3 = stderr sampleWorld ++ [errorString (StoreError NotFound) +:+ nl].
Proof.
  apply (@delete_then_create_is_empty testRuntime sampleFlags sampleWorld
           sampleBlobs);
    [reflexivity | reflexivity | discriminate | discriminate | reflexivity].
Defined.


Lemma init_failure_ends_every_invocation_witness :
  @main refusingRuntime 1 (Invoke List sampleFlags) sampleWorld
    = (Exited 1,
       addStderr (errorString (ArgError "illegal base64 data") +:+ nl)
                 sampleWorld) ∧
  calls (snd (@main refusingRuntime 1 (Invoke List sampleFlags) sampleWorld)) = [].
Proof.
  split; [| reflexivity].
  apply (@init_failure_ends_every_invocation refusingRuntime 1
           (Invoke List sampleFlags) sampleWorld). reflexivity.
Defined.

Lemma list_prints_a_prefix_of_the_listing_witness :
  (∃ w', @listCmd testRuntime 8 sampleFlags timeoutWorld = (Done tt, w') ∧
         stdout w' = stdout timeoutWorld
                     ++ flat_map (render 0)
                          (buildListing (listedKeys sampleFlags sampleBlobs) "" "/")
                     ++ [@listedLine testRuntime sampleFlags]) ∨
  (∃ w' l, @listCmd testRuntime 8 sampleFlags timeoutWorld = (Exited 1, w') ∧
           stdout w' = stdout timeoutWorld ++ l ∧
           l `prefix_of` flat_map (render 0)
                           (buildListing (listedKeys sampleFlags sampleBlobs)
                                         "" "/")).
Proof.
  apply (@list_prints_a_prefix_of_the_listing testRuntime 8 sampleFlags
           timeoutWorld sampleBlobs);
    [discriminate | reflexivity | vm_compute; lia].
Defined.

Lemma list_absent_container_fails_witness :
  ∃ w' e, @listCmd testRuntime 1 sampleFlags (quiet ∅) = (Exited 1, w') ∧
          stdout w' = stdout (quiet ∅) ∧
          containers w' = containers (quiet ∅) ∧
          stderr w' = stderr (quiet ∅) ++ [errorString e +:+ nl] ∧
          calls w' = calls (quiet ∅)
                     ++ [CallOpenBucket (containerName sampleFlags); CallNext ""] ∧
          (e = StoreError NotFound ∨ ∃ k fs, faults (quiet ∅) = Some k :: fs).
Proof.
  apply (@list_absent_container_fails testRuntime 1 sampleFlags (quiet ∅));
    [discriminate | reflexivity | lia].
Defined.

Lemma list_nothing_under_prefix_witness :
  ∃ w', @listCmd testRuntime 1 strangerFlags sampleWorld = (Done tt, w') ∧
        stdout w' = stdout sampleWorld ++ [@listedLine testRuntime strangerFlags] ∧
        stderr w' = stderr sampleWorld.
Proof.
  apply (@list_nothing_under_prefix testRuntime 1 strangerFlags sampleWorld
           sampleBlobs); [reflexivity | discriminate | reflexivity | | lia].
  intros k Hk%elem_of_elements. vm_compute in Hk.
  repeat (apply elem_of_cons in Hk as [-> | Hk]; [reflexivity |]).
  by apply elem_of_nil in Hk.
Defined.


(** The interrupted listing of the sample, evaluated: after the first
    fetch the transport times out, and one line of the six is printed. *)
Example interrupted_listing :
  fst (@listCmd testRuntime 8 sampleFlags timeoutWorld) = Exited 1 ∧
  stdout (snd (@listCmd testRuntime 8 sampleFlags timeoutWorld)) = ["a/" +:+ nl].
Proof. vm_compute. split; reflexivity. Qed.
